(** * Bussin front end: the lexer ([tokenize]) and the host entry point
    ([run], [repl]) of [src/main.ts], as a shallow embedding.

    JavaScript strings are sequences of UTF-16 code units.  [tokenize]
    starts by splitting [sourceCode] into an array with one element per
    code unit, so a source text is modelled as a list of code units and a
    code unit as a number ([charCodeAt(0)] of the one-character string). *)

From Stdlib Require Import Ascii String.
From Stdlib Require Import List NArith ZArith Bool Lia.
From Equations Require Import Equations.
From Equations.Prop Require Import Logic.
Import ListNotations.

Local Open Scope N_scope.
Local Open Scope list_scope.

(** ** JavaScript strings *)

Definition char : Type := N.
Definition jsstring : Type := list char.

(** The code unit of an ASCII character literal. *)
Definition ch (a : ascii) : char := N_of_ascii a.
Arguments ch a%_char.

(** A string literal of the source, as its code units. *)
Definition js (s : string) : jsstring := map ch (list_ascii_of_string s).
Arguments js s%_string.

(** The double quote (code unit 34). *)
Definition dquote : char := 34.

Fixpoint jsstring_eqb (a b : jsstring) : bool :=
  match a, b with
  | [], [] => true
  | x :: a', y :: b' => (x =? y) && jsstring_eqb a' b'
  | _, _ => false
  end.

(** [s.startsWith(p)] *)
Fixpoint startsWith (s p : jsstring) : bool :=
  match p, s with
  | [], _ => true
  | y :: p', x :: s' => (x =? y) && startsWith s' p'
  | _ :: _, [] => false
  end.

(** [s.includes(p)]: [p] occurs in [s] at some position. *)
Fixpoint includes (s p : jsstring) : bool :=
  startsWith s p ||
  match s with
  | [] => false
  | _ :: s' => includes s' p
  end.

(** [s.endsWith(p)] *)
Definition endsWith (s p : jsstring) : bool :=
  startsWith (rev s) (rev p).

(** ** What a call can do besides returning *)

(** One argument of a [console.error] / [console.log] call. *)
Inductive ConsoleArg : Type :=
| ArgStr (s : jsstring)
| ArgNum (n : N).

(** A call either returns a value to its caller, or throws, or ends the
    whole process with [process.exit(status)] after having written
    [stderr] with [console.error]. *)
Inductive Outcome (A : Type) : Type :=
| Returns (a : A)
| Throws (msg : jsstring)
| Exits (status : Z) (stderr : list ConsoleArg).
Arguments Returns {A} a.
Arguments Throws {A} msg.
Arguments Exits {A} status stderr.

(** How a call failed, if it did: the exception thrown, or the exit status
    and what was written to the error console. *)
Definition failure {A : Type} (o : Outcome A)
  : option (jsstring + Z * list ConsoleArg) :=
  match o with
  | Returns _ => None
  | Throws msg => Some (inl msg)
  | Exits status stderr => Some (inr (status, stderr))
  end.

(** ** The lexer *)

Module TokenType.
Inductive t : Type :=
| Number | Identifier | String
| Let | Const | Fn | If | Else | For
| BinaryOperator | Equals | Comma | Colon | Semicolon | Dot
| OpenParen | CloseParen | OpenBrace | CloseBrace
| OpenBracket | CloseBracket | Quotation | Greater | Lesser
| EqualsCompare | NotEqualsCompare | Exclamation | And | Ampersand
| Bar | EOF.

Definition eqb (a b : t) : bool :=
  match a, b with
  | Number, Number | Identifier, Identifier | String, String
  | Let, Let | Const, Const | Fn, Fn | If, If | Else, Else | For, For
  | BinaryOperator, BinaryOperator | Equals, Equals | Comma, Comma
  | Colon, Colon | Semicolon, Semicolon | Dot, Dot
  | OpenParen, OpenParen | CloseParen, CloseParen
  | OpenBrace, OpenBrace | CloseBrace, CloseBrace
  | OpenBracket, OpenBracket | CloseBracket, CloseBracket
  | Quotation, Quotation | Greater, Greater | Lesser, Lesser
  | EqualsCompare, EqualsCompare | NotEqualsCompare, NotEqualsCompare
  | Exclamation, Exclamation | And, And | Ampersand, Ampersand
  | Bar, Bar | EOF, EOF => true
  | _, _ => false
  end.
End TokenType.

Module Lexer.

Record Token : Type := { value : jsstring; type : TokenType.t }.

Definition token (value : jsstring) (type : TokenType.t) : Token :=
  {| value := value; type := type |}.

(** What indexing the [KEYWORDS] object can yield: [KEYWORDS] is an object
    literal, so besides its six own properties (numbers of the
    [TokenType] enum) a lookup finds the members it inherits from
    [Object.prototype], which are functions or objects, never numbers. *)
Inductive Property : Type :=
| PNumber (t : TokenType.t)
| PInherited
| PUndefined.

Definition KEYWORDS_own : list (jsstring * TokenType.t) :=
  [ (js "let", TokenType.Let);
    (js "const", TokenType.Const);
    (js "fn", TokenType.Fn);
    (js "if", TokenType.If);
    (js "else", TokenType.Else);
    (js "for", TokenType.For) ].

Definition Object_prototype : list jsstring :=
  [ js "constructor"; js "hasOwnProperty"; js "isPrototypeOf";
    js "propertyIsEnumerable"; js "toLocaleString"; js "toString";
    js "valueOf"; js "__defineGetter__"; js "__defineSetter__";
    js "__lookupGetter__"; js "__lookupSetter__"; js "__proto__" ].

Fixpoint own_property (tbl : list (jsstring * TokenType.t)) (k : jsstring)
  : option TokenType.t :=
  match tbl with
  | [] => None
  | (k', v) :: tbl' => if jsstring_eqb k k' then Some v else own_property tbl' k
  end.

(** [KEYWORDS[ident]] *)
Definition KEYWORDS (ident : jsstring) : Property :=
  match own_property KEYWORDS_own ident with
  | Some t => PNumber t
  | None =>
      if existsb (jsstring_eqb ident) Object_prototype then PInherited
      else PUndefined
  end.

(** [/^[A-Za-z_]+$/.test(src)] *)
Definition alpha (c : char) : bool :=
  ((ch "A" <=? c) && (c <=? ch "Z"))
  || ((ch "a" <=? c) && (c <=? ch "z"))
  || (c =? ch "_").

Definition isalpha (src : jsstring) : bool :=
  match src with
  | [] => false
  | _ :: _ => forallb alpha src
  end.

Definition isskippable (str : jsstring) : bool :=
  jsstring_eqb str (js " ") || jsstring_eqb str [10]
  || jsstring_eqb str [9] || jsstring_eqb str [13].

(** [str.charCodeAt(0)] of the empty string is NaN and both comparisons
    are then false. *)
Definition isint (str : jsstring) : bool :=
  match str with
  | [] => false
  | c :: _ => (ch "0" <=? c) && (c <=? ch "9")
  end.

(** [while (src.length > 0 && p(src[0])) acc += src.shift();]
    returns the accumulated string and what is left of [src]. *)
Fixpoint shift_while (p : jsstring -> bool) (src : list char)
  : jsstring * list char :=
  match src with
  | [] => ([], [])
  | c :: rest =>
      if p [c] then
        let (acc, src') := shift_while p rest in (c :: acc, src')
      else ([], src)
  end.

(** [src[0] == c], false on the empty array ([src[0]] is undefined). *)
Definition head_is (c : char) (src : list char) : bool :=
  match src with
  | [] => false
  | x :: _ => x =? c
  end.

(** [tokens.push(t)] *)
Definition push (tokens : list Token) (t : Token) : list Token :=
  tokens ++ [t].

(** State of the scanning loop after one iteration of its body. *)
Inductive Step : Type :=
| Next (src : list char) (tokens : list Token)
| Halt (status : Z) (stderr : list ConsoleArg).

(** The first argument of the lexer's [console.error] call. *)
Definition unrecognized_message : jsstring :=
  js "Unreconized character found in source: ".

(** One iteration of [while (src.length > 0)]; the array is [c :: rest],
    so [src[0]] is [c] and [src.shift()] leaves [rest]. *)
Definition lex_one (c : char) (rest : list char) (tokens : list Token) : Step :=
  let single ty := Next rest (push tokens (token [c] ty)) in
  if c =? ch "(" then single TokenType.OpenParen
  else if c =? ch ")" then single TokenType.CloseParen
  else if c =? ch "{" then single TokenType.OpenBrace
  else if c =? ch "}" then single TokenType.CloseBrace
  else if c =? ch "[" then single TokenType.OpenBracket
  else if c =? ch "]" then single TokenType.CloseBracket
  else if (c =? ch "+") || (c =? ch "-") || (c =? ch "*")
          || (c =? ch "%") || (c =? ch "/")
       then single TokenType.BinaryOperator
  else if c =? ch "<" then single TokenType.Lesser
  else if c =? ch ">" then single TokenType.Greater
  else if c =? ch "." then single TokenType.Dot
  else if c =? ch ";" then single TokenType.Semicolon
  else if c =? ch ":" then single TokenType.Colon
  else if c =? ch "," then single TokenType.Comma
  else if c =? ch "|" then single TokenType.Bar
  else if isint [c] then
    let (num, src') := shift_while isint (c :: rest) in
    Next src' (push tokens (token num TokenType.Number))
  else if c =? ch "=" then
    if head_is (ch "=") rest
    then Next (tl rest) (push tokens (token (js "==") TokenType.EqualsCompare))
    else Next rest (push tokens (token (js "=") TokenType.Equals))
  else if c =? ch "&" then
    if head_is (ch "&") rest
    then Next (tl rest) (push tokens (token (js "&&") TokenType.And))
    else Next rest (push tokens (token (js "&") TokenType.Ampersand))
  else if c =? ch "!" then
    if head_is (ch "=") rest
    then Next (tl rest)
              (push tokens (token (js "!=") TokenType.NotEqualsCompare))
    else Next rest (push tokens (token (js "!") TokenType.Exclamation))
  else if c =? dquote then
    let (str, src') :=
      shift_while (fun s => negb (jsstring_eqb s [dquote])) rest in
    Next (tl src') (push tokens (token str TokenType.String))
  else if isalpha [c] then
    let (ident, src') := shift_while isalpha (c :: rest) in
    match KEYWORDS ident with
    | PNumber reserved => Next src' (push tokens (token ident reserved))
    | _ => Next src' (push tokens (token ident TokenType.Identifier))
    end
  else if isskippable [c] then Next rest tokens
  else Halt 1 [ArgStr unrecognized_message; ArgNum c; ArgStr [c]].

(** The token pushed after the loop. *)
Definition eof : Token := token (js "EndOfFile") TokenType.EOF.

(** *** The loop, and why it ends

    [scan] is the [while] loop of [tokenize]; it is defined by recursion on
    the length of [src], which every iteration makes smaller. *)

(** [suffix_of s' s]: [s'] is what is left of [s] after shifting some
    elements off its front. *)
Definition suffix_of (s' s : list char) : Prop :=
  exists pre, s = pre ++ s'.

Ltac split_ifs :=
  repeat match goal with
  | |- context [if ?b then _ else _] => destruct b eqn:?
  end.

Lemma shift_while_split p src acc src' :
  shift_while p src = (acc, src') -> src = acc ++ src'.
Proof.
  revert acc src'. induction src as [|c rest IH]; intros acc src' H; simpl in H.
  - inversion H. reflexivity.
  - destruct (p [c]).
    + destruct (shift_while p rest) as [a s] eqn:E.
      inversion H; subst. simpl. f_equal. apply IH. reflexivity.
    + inversion H. reflexivity.
Qed.

Lemma shift_while_cons p c rest :
  shift_while p (c :: rest) =
  if p [c] then (c :: fst (shift_while p rest), snd (shift_while p rest))
  else ([], c :: rest).
Proof. simpl. destruct (p [c]), (shift_while p rest); reflexivity. Qed.

Lemma suffix_of_tl s : suffix_of (tl s) s.
Proof. destruct s as [|x s]; [exists []|exists [x]]; reflexivity. Qed.

Lemma suffix_of_refl s : suffix_of s s.
Proof. exists []. reflexivity. Qed.

Lemma suffix_of_trans a b c : suffix_of a b -> suffix_of b c -> suffix_of a c.
Proof.
  intros [p Hp] [q Hq]. exists (q ++ p). subst. now rewrite app_assoc.
Qed.

Lemma suffix_of_length s' s : suffix_of s' s -> (length s' <= length s)%nat.
Proof. intros [p ->]. rewrite length_app. lia. Qed.

(** Every iteration shifts at least the first element off the array. *)
Lemma lex_one_shifts c rest tokens src' tokens' :
  lex_one c rest tokens = Next src' tokens' -> suffix_of src' rest.
Proof.
  unfold lex_one.
  repeat match goal with
  | |- context [if ?b then _ else _] =>
      lazymatch b with
      | head_is _ _ => destruct b
      | isint _ => destruct b eqn:?
      | isalpha _ => destruct b eqn:?
      | _ => destruct b
      end
  end;
  try (intros H; inversion H; subst;
       first [apply suffix_of_refl | apply suffix_of_tl]).
  - rewrite shift_while_cons, Heqb.
    destruct (shift_while isint rest) as [a s] eqn:E. simpl.
    intros H; inversion H; subst. exists a. exact (shift_while_split _ _ _ _ E).
  - destruct (shift_while _ rest) as [a s] eqn:E.
    intros H; inversion H; subst.
    eapply suffix_of_trans; [apply suffix_of_tl|].
    exists a. exact (shift_while_split _ _ _ _ E).
  - rewrite shift_while_cons, Heqb0.
    destruct (shift_while isalpha rest) as [a s] eqn:E.
    assert (suffix_of s rest) by (exists a; exact (shift_while_split _ _ _ _ E)).
    simpl.
    destruct (KEYWORDS _); intros H'; inversion H'; subst; assumption.
Qed.

(** [while (src.length > 0) { ... }  tokens.push(EOF); return tokens;] *)
Equations? scan (src : list char) (tokens : list Token)
  : Outcome (list Token) by wf (length src) lt :=
  scan [] tokens := Returns (push tokens eof);
  scan (c :: rest) tokens with inspect (lex_one c rest tokens) => {
    | exist _ (Next src' tokens') Heq := scan src' tokens';
    | exist _ (Halt status stderr) _ := Exits status stderr }.
Proof.
  apply lex_one_shifts, suffix_of_length in Heq. simpl. lia.
Qed.

Definition tokenize (sourceCode : jsstring) : Outcome (list Token) :=
  scan sourceCode [].

(** *** Character classes of the scanner *)

Definition digit (c : char) : bool := (ch "0" <=? c) && (c <=? ch "9").

Definition not_dquote (c : char) : bool := negb (c =? dquote).

(** The characters of the outer [switch]: each is a token by itself. *)
Definition single_character (c : char) : bool :=
  existsb (N.eqb c) (js "(){}[]+-*%/<>.;:,|").

(** The characters that do not reach the final [else] of the loop body. *)
Definition recognized (c : char) : bool :=
  single_character c || isint [c]
  || (c =? ch "=") || (c =? ch "&") || (c =? ch "!") || (c =? dquote)
  || isalpha [c] || isskippable [c].

(** The first element of [src], if any, fails [p]: a run of [p] ends here. *)
Definition stops (p : char -> bool) (src : list char) : Prop :=
  match src with
  | [] => True
  | c :: _ => p c = false
  end.

(** The kind given to a letter run: [typeof reserved == "number"]. *)
Definition word_kind (ident : jsstring) : TokenType.t :=
  match KEYWORDS ident with
  | PNumber reserved => reserved
  | _ => TokenType.Identifier
  end.

(** *** Tokens and positions *)

Definition well_lexed (t : Token) : bool :=
  let v := value t in
  match type t with
  | TokenType.Number => match v with [] => false | _ :: _ => forallb digit v end
  | TokenType.Identifier =>
      isalpha v && match KEYWORDS v with PNumber _ => false | _ => true end
  | TokenType.String => forallb not_dquote v
  | TokenType.Let => jsstring_eqb v (js "let")
  | TokenType.Const => jsstring_eqb v (js "const")
  | TokenType.Fn => jsstring_eqb v (js "fn")
  | TokenType.If => jsstring_eqb v (js "if")
  | TokenType.Else => jsstring_eqb v (js "else")
  | TokenType.For => jsstring_eqb v (js "for")
  | TokenType.BinaryOperator =>
      existsb (jsstring_eqb v) [js "+"; js "-"; js "*"; js "%"; js "/"]
  | TokenType.Equals => jsstring_eqb v (js "=")
  | TokenType.Comma => jsstring_eqb v (js ",")
  | TokenType.Colon => jsstring_eqb v (js ":")
  | TokenType.Semicolon => jsstring_eqb v (js ";")
  | TokenType.Dot => jsstring_eqb v (js ".")
  | TokenType.OpenParen => jsstring_eqb v (js "(")
  | TokenType.CloseParen => jsstring_eqb v (js ")")
  | TokenType.OpenBrace => jsstring_eqb v (js "{")
  | TokenType.CloseBrace => jsstring_eqb v (js "}")
  | TokenType.OpenBracket => jsstring_eqb v (js "[")
  | TokenType.CloseBracket => jsstring_eqb v (js "]")
  | TokenType.Greater => jsstring_eqb v (js ">")
  | TokenType.Lesser => jsstring_eqb v (js "<")
  | TokenType.EqualsCompare => jsstring_eqb v (js "==")
  | TokenType.NotEqualsCompare => jsstring_eqb v (js "!=")
  | TokenType.Exclamation => jsstring_eqb v (js "!")
  | TokenType.And => jsstring_eqb v (js "&&")
  | TokenType.Ampersand => jsstring_eqb v (js "&")
  | TokenType.Bar => jsstring_eqb v (js "|")
  | TokenType.Quotation | TokenType.EOF => false
  end.

(** The tokens pushed so far stay in front of whatever the rest of the
    scan returns. *)
Definition prepend (tokens : list Token) (o : Outcome (list Token))
  : Outcome (list Token) :=
  match o with
  | Returns out => Returns (tokens ++ out)
  | Throws msg => Throws msg
  | Exits status stderr => Exits status stderr
  end.

(** [at_position sourceCode src tokens]: while tokenizing [sourceCode] the
    loop reaches its head with [src] left to read and [tokens] pushed. *)
Inductive at_position (sourceCode : jsstring)
  : list char -> list Token -> Prop :=
| at_start : at_position sourceCode sourceCode []
| at_next c rest tokens src' tokens' :
    at_position sourceCode (c :: rest) tokens ->
    lex_one c rest tokens = Next src' tokens' ->
    at_position sourceCode src' tokens'.

(** While tokenizing [sourceCode] the loop, having pushed [tokens], pushes
    exactly the token [t] next and then stands before [rest]; and whenever
    [tokenize] returns, [t] is the token that follows [tokens] in the
    sequence it returns. *)
Definition emits (sourceCode : jsstring) (tokens : list Token) (t : Token)
           (rest : list char) : Prop :=
  at_position sourceCode rest (push tokens t) /\
  forall out, tokenize sourceCode = Returns out ->
              exists more, out = tokens ++ t :: more.

(** The state of the loop after [n] iterations, if it gets that far. *)
Fixpoint iterations (n : nat) (src : list char) (tokens : list Token)
  : option (list char * list Token) :=
  match n with
  | O => Some (src, tokens)
  | S n' =>
      match src with
      | [] => None
      | c :: rest =>
          match lex_one c rest tokens with
          | Next src' tokens' => iterations n' src' tokens'
          | Halt _ _ => None
          end
      end
  end.

(** Two neighbouring characters are part of one run of digits or of one
    run of letters. *)
Definition joins (a b : char) : bool :=
  (digit a && digit b) || (alpha a && alpha b).

(** The character [x] that follows the text [pre] starts a run of its
    own: the last character of [pre], if there is one, does not join it. *)
Fixpoint separated (pre : list char) (x : char) : Prop :=
  match pre with
  | [] => True
  | [a] => joins a x = false
  | _ :: pre' => separated pre' x
  end.

(** Text without double quotes and without unrecognized characters. *)
Definition plain (pre : list char) : bool :=
  forallb (fun c => recognized c && not_dquote c) pre.

(** The source text with the characters that the loop skips taken out. *)
Definition without_whitespace (src : list char) : jsstring :=
  filter (fun c => negb (isskippable [c])) src.

(** Text made of skipped characters only. *)
Definition blank (src : list char) : bool :=
  forallb (fun c => isskippable [c]) src.

(** *** Writing tokens back as source text *)

(** The raw texts of the tokens before the end marker, concatenated. *)
Definition raw_text (out : list Token) : jsstring :=
  concat (map value (removelast out)).

Definition kinds (out : list Token) : list TokenType.t := map type out.

(** The round trip through the raw texts: concatenated, they lex to the
    same kinds. *)
Definition raw_round_trip (sourceCode : jsstring) : Prop :=
  forall out,
    tokenize sourceCode = Returns out ->
    exists out', tokenize (raw_text out) = Returns out' /\ kinds out' = kinds out.

(** The text of a token as it stood in the source: a string literal gets
    its quotes back. *)
Definition lexeme (t : Token) : jsstring :=
  match type t with
  | TokenType.String => dquote :: value t ++ [dquote]
  | _ => value t
  end.

(** The lexemes of the tokens before the end marker, a space after each. *)
Definition spaced (toks : list Token) : jsstring :=
  flat_map (fun t => lexeme t ++ [ch " "]) toks.

Definition unlex (out : list Token) : jsstring := spaced (removelast out).

(** How many tokens of [out] have kind [ty]. *)
Definition count_kind (ty : TokenType.t) (out : list Token) : nat :=
  length (filter (fun t => TokenType.eqb (type t) ty) out).

(** The call gives control back to its caller, with a value or with an
    exception that the caller can catch and inspect. *)
Definition comes_back {A : Type} (o : Outcome A) : Prop :=
  match o with
  | Returns _ | Throws _ => True
  | Exits _ _ => False
  end.

End Lexer.

Import Lexer.

(** ** The host entry point *)

Module Main.

Section Host.

(** The parser, the interpreter, the environment and the transcriber are
    imported by [main.ts] from modules outside this file; they are
    parameters here, and each call may return, throw or end the
    process.  [Parser] and [Env] are the states of the objects made by
    [new Parser()] and [createGlobalEnv()], which the loop reuses from
    one line to the next. *)
Variables Parser Env Program Value : Type.
Variable new_Parser : Parser.
Variable createGlobalEnv : Env.
Variable readFileSync : jsstring -> Outcome jsstring.
Variable transcribe : jsstring -> Outcome jsstring.
Variable produceAST : Parser -> jsstring -> Outcome (Program * Parser).
Variable evaluate : Program -> Env -> Outcome (Value * Env).

(** The calls that [run] and [repl] make, in the order they make them. *)
Inductive Call : Type :=
| call_readFileSync (filename : jsstring)
| call_transcribe (input : jsstring)
| call_produceAST (input : jsstring)
| call_evaluate (program : Program)
| call_question (prompt : jsstring)
| call_log_text (text : jsstring)
| call_log (result : Value).

(** A computation of the host: how it ends and the calls made on the way. *)
Record Run (A : Type) : Type := { outcome : Outcome A; calls : list Call }.
Arguments outcome {A} r.
Arguments calls {A} r.

Definition ret {A} (a : A) : Run A := {| outcome := Returns a; calls := [] |}.

Definition call {A} (c : Call) (o : Outcome A) : Run A :=
  {| outcome := o; calls := [c] |}.

Definition exit {A} (status : Z) : Run A :=
  {| outcome := Exits status []; calls := [] |}.

Definition bind {A B} (m : Run A) (k : A -> Run B) : Run B :=
  match outcome m with
  | Returns a =>
      {| outcome := outcome (k a); calls := calls m ++ calls (k a) |}
  | Throws msg => {| outcome := Throws msg; calls := calls m |}
  | Exits status stderr =>
      {| outcome := Exits status stderr; calls := calls m |}
  end.

Notation "x <- m ;; k" := (bind m (fun x => k))
  (at level 61, m at next level, right associativity).
Notation "' p <- m ;; k" := (bind m (fun x => let p := x in k))
  (at level 61, p pattern, m at next level, right associativity).

(** [async function run(filename)]: [None] is the [undefined] of the
    bare [return]. *)
Definition run (filename : jsstring) : Run (option Value) :=
  if negb (endsWith filename (js "cbs")) then ret None
  else
    input <- call (call_readFileSync filename) (readFileSync filename) ;;
    input <- call (call_transcribe input) (transcribe input) ;;
    ' (program, _) <- call (call_produceAST input)
                           (produceAST new_Parser input) ;;
    ' (result, _) <- call (call_evaluate program)
                          (evaluate program createGlobalEnv) ;;
    ret (Some result).

(** [!input || input.includes("exit")] *)
Definition exit_requested (input : jsstring) : bool :=
  match input with [] => true | _ :: _ => false end
  || includes input (js "exit").

(** One iteration of the [while (true)] of [repl], where [rl.question]
    resolves to [input].  Returning means that the loop goes on to its
    next iteration, with the parser and the environment as they are
    now. *)
Definition repl_turn (input : jsstring) (parser : Parser) (env : Env)
  : Run (Parser * Env) :=
  _ <- call (call_question (js "> ")) (Returns tt) ;;
  if exit_requested input then exit 1
  else
    input <- call (call_transcribe input) (transcribe input) ;;
    ' (program, parser) <- call (call_produceAST input)
                                (produceAST parser input) ;;
    ' (result, env) <- call (call_evaluate program)
                            (evaluate program env) ;;
    _ <- call (call_log result) (Returns tt) ;;
    ret (parser, env).

(** The loop over the lines that the user types; when they are used up
    the loop is waiting in [rl.question]. *)
Fixpoint repl_loop (lines : list jsstring) (parser : Parser) (env : Env)
  : Run (Parser * Env) :=
  match lines with
  | [] => call (call_question (js "> ")) (Returns (parser, env))
  | input :: lines' =>
      ' (parser, env) <- repl_turn input parser env ;;
      repl_loop lines' parser env
  end.

Definition repl (lines : list jsstring) : Run (Parser * Env) :=
  _ <- call (call_log_text (js "Repl v1.0 (Bussin)")) (Returns tt) ;;
  repl_loop lines new_Parser createGlobalEnv.

(** [served lines parser env made state]: every line of [lines] went
    through a full turn of the loop, one after the other, starting with
    [parser] and [env] and each turn working on what the turn before
    left; [made] lists the calls, five for each line and the prompt the
    loop then waits in; [state] is the parser and the environment at that
    prompt. *)
Inductive served
  : list jsstring -> Parser -> Env -> list Call -> Parser * Env -> Prop :=
| served_waiting parser env :
    served [] parser env [call_question (js "> ")] (parser, env)
| served_line input lines parser env
              input' program parser' result env' made state :
    exit_requested input = false ->
    transcribe input = Returns input' ->
    produceAST parser input' = Returns (program, parser') ->
    evaluate program env = Returns (result, env') ->
    served lines parser' env' made state ->
    served (input :: lines) parser env
      (call_question (js "> ") :: call_transcribe input
         :: call_produceAST input' :: call_evaluate program
         :: call_log result :: made)
      state.

(** The top level of [main.ts]: [if (file) run(file) else repl()], where
    [file] is [process.argv[2]]: undefined when no argument is given, and
    falsy too when the argument is the empty string. *)
Definition main (file : option jsstring) (lines : list jsstring)
  : Run (option Value + Parser * Env) :=
  match file with
  | Some (c :: name) => result <- run (c :: name) ;; ret (inl result)
  | Some [] | None => state <- repl lines ;; ret (inr state)
  end.

End Host.

Arguments ret {Program Value A} a.
Arguments call {Program Value A} c o.
Arguments exit {Program Value A} status.
Arguments bind {Program Value A B} m k.
Arguments run {Parser Env Program Value}.
Arguments repl_turn {Parser Env Program Value}.
Arguments repl_loop {Parser Env Program Value}.
Arguments repl {Parser Env Program Value}.
Arguments main {Parser Env Program Value}.
Arguments served {Parser Env Program Value}.
Arguments outcome {Program Value A} r.
Arguments calls {Program Value A} r.
Arguments call_readFileSync {Program Value} filename.
Arguments call_transcribe {Program Value} input.
Arguments call_produceAST {Program Value} input.
Arguments call_evaluate {Program Value} program.
Arguments call_question {Program Value} prompt.
Arguments call_log_text {Program Value} text.
Arguments call_log {Program Value} result.

(** A file name carries the extension [cbs] when it ends with a dot
    followed by [cbs]. *)
Definition has_extension_cbs (filename : jsstring) : bool :=
  endsWith filename (js ".cbs").

(** Stand-ins for the collaborators, used to run [run] and [repl] on
    examples.  The parser stand-in does what the front end's data flow
    (text, lexer, tokens, parser) starts with, and nothing more: it calls
    [tokenize] on its input and hands the tokens on as the program. *)
Definition lexing_parser (parser : unit) (input : jsstring)
  : Outcome (list Token * unit) :=
  match tokenize input with
  | Returns tokens => Returns (tokens, parser)
  | Throws msg => Throws msg
  | Exits status stderr => Exits status stderr
  end.

(** The interpreter stand-in yields the number of tokens of the program. *)
Definition counting_evaluate (program : list Token) (env : unit)
  : Outcome (nat * unit) :=
  Returns (length program, env).

(** The file-system stand-in: every file reads as [1 + 2]. *)
Definition constant_file (filename : jsstring) : Outcome jsstring :=
  Returns (js "1 + 2").

(** File-system stand-ins for failures: no file exists, and every file
    reads as [1 # 2]. *)
Definition missing_file (filename : jsstring) : Outcome jsstring :=
  Throws (js "ENOENT").

Definition garbled_file (filename : jsstring) : Outcome jsstring :=
  Returns (js "1 # 2").

(** The transcriber stand-in leaves its input as it is. *)
Definition identity_transcribe (input : jsstring) : Outcome jsstring :=
  Returns input.

End Main.

Import Main.

(** * Facts about the lexer *)

Lemma scan_cons c rest tokens :
  scan (c :: rest) tokens =
  match lex_one c rest tokens with
  | Next src' tokens' => scan src' tokens'
  | Halt status stderr => Exits status stderr
  end.
Proof.
  remember (match lex_one c rest tokens with
            | Next src' tokens' => scan src' tokens'
            | Halt status stderr => Exits status stderr
            end) as r eqn:Hr.
  simp scan.
  destruct (inspect (lex_one c rest tokens)) as [[src' tokens'|status stderr] Hs];
    rewrite Hs in Hr; subst r; reflexivity.
Qed.

(** Turns the boolean tests on characters into arithmetic on their codes. *)
Ltac bool_flat :=
  repeat match goal with
  | H : true = false |- _ => discriminate H
  | H : false = true |- _ => discriminate H
  | H : andb _ _ = true |- _ => apply andb_prop in H; destruct H
  | H : orb _ _ = false |- _ => apply orb_false_elim in H; destruct H
  | H : negb _ = true |- _ => apply negb_true_iff in H
  | H : negb _ = false |- _ => apply negb_false_iff in H
  | H : (_ =? _) = true |- _ => apply N.eqb_eq in H
  | H : (_ =? _) = false |- _ => apply N.eqb_neq in H
  | H : (_ <=? _) = true |- _ => apply N.leb_le in H
  | H : (_ <=? _) = false |- _ => apply N.leb_gt in H
  end.

Ltac bool_branch :=
  match goal with
  | H : andb _ _ = false |- _ => apply andb_false_iff in H; destruct H
  | H : orb _ _ = true |- _ => apply orb_prop in H; destruct H
  end.

Ltac class_unfold :=
  unfold single_character, isint, isalpha, isskippable,
         alpha, digit, not_dquote, head_is, dquote, js in *;
  cbn [existsb forallb jsstring_eqb map list_ascii_of_string] in *;
  repeat match goal with
  | |- context [ch ?a] =>
      let v := eval vm_compute in (ch a) in change (ch a) with v
  | H : context [ch ?a] |- _ =>
      let v := eval vm_compute in (ch a) in change (ch a) with v in H
  end.

Ltac class_arith :=
  class_unfold; bool_flat;
  first [ lia | repeat (bool_branch; bool_flat); lia ].

Ltac absurd_class :=
  solve [ exfalso; unfold recognized in *; bool_flat;
          first [ congruence | class_arith ] ].

Lemma isint_single c : isint [c] = digit c.
Proof. reflexivity. Qed.

Lemma isalpha_single c : isalpha [c] = alpha c.
Proof. unfold isalpha. simpl. apply andb_true_r. Qed.

Lemma jsstring_eqb_eq a b : jsstring_eqb a b = true <-> a = b.
Proof.
  revert b. induction a as [|x a IH]; intros [|y b]; simpl; split;
    try congruence; try discriminate.
  - intros H. apply andb_prop in H as [H1 H2].
    apply N.eqb_eq in H1. apply IH in H2. congruence.
  - intros H. inversion H; subst. rewrite N.eqb_refl. simpl. now apply IH.
Qed.

Lemma not_dquote_single c :
  negb (jsstring_eqb [c] [dquote]) = not_dquote c.
Proof. unfold not_dquote. simpl. now rewrite andb_true_r. Qed.

(** *** Runs *)

Lemma shift_while_run (p : jsstring -> bool) (q : char -> bool) run rest :
  (forall c, p [c] = q c) ->
  forallb q run = true -> stops q rest ->
  shift_while p (run ++ rest) = (run, rest).
Proof.
  intros Hpq Hrun Hstop. induction run as [|c run IH]; simpl in *.
  - destruct rest as [|c rest]; [reflexivity|].
    simpl in *. now rewrite Hpq, Hstop.
  - apply andb_prop in Hrun as [Hc Hrun].
    rewrite Hpq, Hc, IH; auto.
Qed.

Lemma shift_while_spec (p : jsstring -> bool) (q : char -> bool) src acc src' :
  (forall c, p [c] = q c) ->
  shift_while p src = (acc, src') ->
  src = acc ++ src' /\ forallb q acc = true /\ stops q src'.
Proof.
  intros Hpq. revert acc src'.
  induction src as [|c rest IH]; intros acc src' H; simpl in H.
  - inversion H; subst. repeat split.
  - rewrite Hpq in H. destruct (q c) eqn:Hc.
    + destruct (shift_while p rest) as [a s] eqn:E.
      inversion H; subst. destruct (IH _ _ eq_refl) as (-> & Ha & Hs).
      simpl. rewrite Hc. auto.
    + inversion H; subst. repeat split. exact Hc.
Qed.

(** *** The loop body, branch by branch *)

Lemma lex_one_tokens c rest tokens :
  lex_one c rest tokens =
  match lex_one c rest [] with
  | Next src' emitted => Next src' (tokens ++ emitted)
  | Halt status stderr => Halt status stderr
  end.
Proof.
  unfold lex_one, push. split_ifs; try reflexivity;
    try (now rewrite app_nil_r);
    repeat match goal with
    | |- context [let (_, _) := ?x in _] => destruct x
    | |- context [match KEYWORDS ?x with _ => _ end] => destruct (KEYWORDS x)
    end; reflexivity.
Qed.

Lemma lex_one_unrecognized c rest tokens :
  recognized c = false ->
  lex_one c rest tokens =
  Halt 1 [ArgStr unrecognized_message; ArgNum c; ArgStr [c]].
Proof.
  intros H. unfold lex_one. split_ifs; try reflexivity; absurd_class.
Qed.

Lemma lex_one_recognized c rest tokens :
  recognized c = true ->
  exists src' tokens', lex_one c rest tokens = Next src' tokens'.
Proof.
  intros H. unfold lex_one. split_ifs;
    repeat match goal with
    | |- context [let (_, _) := ?x in _] => destruct x
    | |- context [match KEYWORDS ?x with _ => _ end] => destruct (KEYWORDS x)
    end; try (eexists; eexists; reflexivity).
  absurd_class.
Qed.

Lemma lex_one_digit c rest tokens :
  digit c = true ->
  lex_one c rest tokens =
  let (num, src') := shift_while isint (c :: rest) in
  Next src' (push tokens (token num TokenType.Number)).
Proof.
  intros H. unfold lex_one. split_ifs; try reflexivity; absurd_class.
Qed.

Lemma lex_one_alpha c rest tokens :
  alpha c = true ->
  lex_one c rest tokens =
  let (ident, src') := shift_while isalpha (c :: rest) in
  match KEYWORDS ident with
  | PNumber reserved => Next src' (push tokens (token ident reserved))
  | _ => Next src' (push tokens (token ident TokenType.Identifier))
  end.
Proof.
  intros H. unfold lex_one. split_ifs; try reflexivity; absurd_class.
Qed.

Lemma lex_one_skippable c rest tokens :
  isskippable [c] = true -> lex_one c rest tokens = Next rest tokens.
Proof.
  intros H. unfold lex_one. split_ifs; try reflexivity; absurd_class.
Qed.

Lemma lex_one_dquote rest tokens :
  lex_one dquote rest tokens =
  let (str, src') :=
    shift_while (fun s => negb (jsstring_eqb s [dquote])) rest in
  Next (tl src') (push tokens (token str TokenType.String)).
Proof. reflexivity. Qed.

Lemma lex_one_equals rest tokens :
  lex_one (ch "=") rest tokens =
  if head_is (ch "=") rest
  then Next (tl rest) (push tokens (token (js "==") TokenType.EqualsCompare))
  else Next rest (push tokens (token (js "=") TokenType.Equals)).
Proof. reflexivity. Qed.

Lemma lex_one_ampersand rest tokens :
  lex_one (ch "&") rest tokens =
  if head_is (ch "&") rest
  then Next (tl rest) (push tokens (token (js "&&") TokenType.And))
  else Next rest (push tokens (token (js "&") TokenType.Ampersand)).
Proof. reflexivity. Qed.

Lemma lex_one_exclamation rest tokens :
  lex_one (ch "!") rest tokens =
  if head_is (ch "=") rest
  then Next (tl rest) (push tokens (token (js "!=") TokenType.NotEqualsCompare))
  else Next rest (push tokens (token (js "!") TokenType.Exclamation)).
Proof. reflexivity. Qed.

(** *** Induction along the iterations of the loop *)

Lemma prepend_prepend a b o : prepend a (prepend b o) = prepend (a ++ b) o.
Proof. destruct o; simpl; try reflexivity. now rewrite app_assoc. Qed.

Lemma source_induction (P : list char -> Prop) :
  P [] ->
  (forall c rest, (forall src', suffix_of src' rest -> P src') -> P (c :: rest)) ->
  forall src, P src.
Proof.
  intros Hnil Hcons src.
  induction src as [src IH] using (induction_ltof1 _ (@length char)).
  destruct src as [|c rest]; [apply Hnil|].
  apply Hcons. intros src' H. apply IH.
  apply suffix_of_length in H. unfold ltof. simpl. lia.
Qed.

Lemma scan_prepend src tokens : scan src tokens = prepend tokens (scan src []).
Proof.
  revert tokens. induction src as [|c rest IH] using source_induction;
    intros tokens.
  - simp scan. reflexivity.
  - rewrite !scan_cons, (lex_one_tokens c rest tokens).
    destruct (lex_one c rest []) as [src' emitted|status stderr] eqn:E;
      [|reflexivity].
    apply lex_one_shifts in E.
    rewrite (IH _ E (tokens ++ emitted)), (IH _ E emitted), prepend_prepend.
    reflexivity.
Qed.

(** *** What the loop does with a lexeme at the front of [src] *)

Lemma scan_step c rest tokens src' tokens' :
  lex_one c rest tokens = Next src' tokens' ->
  scan (c :: rest) tokens = scan src' tokens'.
Proof. intros H. now rewrite scan_cons, H. Qed.

Lemma scan_halt c rest tokens status stderr :
  lex_one c rest tokens = Halt status stderr ->
  scan (c :: rest) tokens = Exits status stderr.
Proof. intros H. now rewrite scan_cons, H. Qed.

Lemma scan_skippable c rest tokens :
  isskippable [c] = true -> scan (c :: rest) tokens = scan rest tokens.
Proof. intros H. apply scan_step. now apply lex_one_skippable. Qed.

Lemma lex_one_number c ds rest tokens :
  forallb digit (c :: ds) = true -> stops digit rest ->
  lex_one c (ds ++ rest) tokens =
  Next rest (push tokens (token (c :: ds) TokenType.Number)).
Proof.
  intros Hall Hstop. rewrite lex_one_digit.
  - change (c :: ds ++ rest) with ((c :: ds) ++ rest).
    now rewrite (shift_while_run isint digit).
  - simpl in Hall. now apply andb_prop in Hall.
Qed.

Lemma lex_one_word c cs rest tokens :
  forallb alpha (c :: cs) = true -> stops alpha rest ->
  lex_one c (cs ++ rest) tokens =
  Next rest (push tokens (token (c :: cs) (word_kind (c :: cs)))).
Proof.
  intros Hall Hstop. rewrite lex_one_alpha.
  - change (c :: cs ++ rest) with ((c :: cs) ++ rest).
    rewrite (shift_while_run isalpha alpha); auto using isalpha_single.
    unfold word_kind. now destruct (KEYWORDS (c :: cs)).
  - simpl in Hall. now apply andb_prop in Hall.
Qed.

Lemma lex_one_string body rest tokens :
  forallb not_dquote body = true ->
  lex_one dquote (body ++ dquote :: rest) tokens =
  Next rest (push tokens (token body TokenType.String)).
Proof.
  intros Hall. rewrite lex_one_dquote.
  rewrite (shift_while_run _ not_dquote); auto using not_dquote_single.
  reflexivity.
Qed.

Lemma scan_number digits rest tokens :
  digits <> [] -> forallb digit digits = true -> stops digit rest ->
  scan (digits ++ rest) tokens =
  scan rest (push tokens (token digits TokenType.Number)).
Proof.
  intros Hne Hall Hstop. destruct digits as [|c ds]; [congruence|].
  apply scan_step. now apply lex_one_number.
Qed.

Lemma scan_word run rest tokens :
  run <> [] -> forallb alpha run = true -> stops alpha rest ->
  scan (run ++ rest) tokens = scan rest (push tokens (token run (word_kind run))).
Proof.
  intros Hne Hall Hstop. destruct run as [|c cs]; [congruence|].
  apply scan_step. now apply lex_one_word.
Qed.

Lemma scan_string body rest tokens :
  forallb not_dquote body = true ->
  scan (dquote :: body ++ dquote :: rest) tokens =
  scan rest (push tokens (token body TokenType.String)).
Proof. intros Hall. apply scan_step. now apply lex_one_string. Qed.

Lemma scan_string_open body tokens :
  forallb not_dquote body = true ->
  scan (dquote :: body) tokens =
  Returns (push (push tokens (token body TokenType.String)) eof).
Proof.
  intros Hall.
  rewrite (scan_step dquote body tokens []
             (push tokens (token body TokenType.String))).
  - now simp scan.
  - rewrite lex_one_dquote. rewrite <- (app_nil_r body) at 1.
    rewrite (shift_while_run _ not_dquote); auto using not_dquote_single.
    exact I.
Qed.

(** *** The tokens that the loop body can push *)

Lemma KEYWORDS_number ident reserved :
  KEYWORDS ident = PNumber reserved ->
  well_lexed (token ident reserved) = true.
Proof.
  unfold KEYWORDS, KEYWORDS_own, own_property.
  repeat match goal with
  | |- context [if jsstring_eqb ?a ?b then _ else _] =>
      destruct (jsstring_eqb a b) eqn:?
  end;
  try (intros H; inversion H; subst; simpl; assumption).
  destruct (existsb _ _); discriminate.
Qed.

Lemma lex_one_well_lexed c rest tokens src' tokens' :
  lex_one c rest tokens = Next src' tokens' ->
  tokens' = tokens \/
  exists t, tokens' = push tokens t /\ well_lexed t = true.
Proof.
  unfold lex_one. split_ifs.
  all: try (intros H; inversion H; subst; right; eexists; split;
            [reflexivity|]; bool_flat; repeat (bool_branch; bool_flat);
            subst; reflexivity).
  - (* digit run *)
    destruct (shift_while isint (c :: rest)) as [num s] eqn:E.
    intros H; inversion H; subst. right. eexists; split; [reflexivity|].
    pose proof (shift_while_spec isint digit _ _ _ isint_single E)
      as (_ & Hall & _).
    match goal with
    | Hd : isint [c] = true |- _ => rewrite shift_while_cons, Hd in E
    end. inversion E; subst.
    exact Hall.
  - (* string *)
    destruct (shift_while _ rest) as [str s] eqn:E.
    intros H; inversion H; subst. right. eexists; split; [reflexivity|].
    now pose proof (shift_while_spec _ not_dquote _ _ _ not_dquote_single E)
      as (_ & Hall & _).
  - (* letter run *)
    destruct (shift_while isalpha (c :: rest)) as [ident s] eqn:E.
    pose proof (shift_while_spec isalpha alpha _ _ _ isalpha_single E)
      as (_ & Hall & _).
    match goal with
    | Ha : isalpha [c] = true |- _ => rewrite shift_while_cons, Ha in E
    end. inversion E; subst. clear E.
    set (ident := c :: fst (shift_while isalpha rest)) in *.
    destruct (KEYWORDS ident) as [reserved| |] eqn:K;
      intros H; inversion H; subst; right; eexists; split;
      try reflexivity; try (now apply KEYWORDS_number);
      unfold well_lexed; simpl value; simpl type; rewrite K;
      unfold isalpha, ident; fold ident; now rewrite Hall.
  - (* whitespace *)
    intros H; inversion H; subst. now left.
  - discriminate.
Qed.

(** *** What a finished scan returns *)

Lemma forallb_suffix_of (p : char -> bool) s' s :
  suffix_of s' s -> forallb p s = true -> forallb p s' = true.
Proof.
  intros [pre ->] H. rewrite forallb_app in H. now apply andb_prop in H.
Qed.

Lemma scan_well_lexed src tokens out :
  scan src tokens = Returns out ->
  exists more,
    out = tokens ++ more ++ [eof] /\ forallb well_lexed more = true.
Proof.
  revert tokens out.
  induction src as [|c rest IH] using source_induction; intros tokens out.
  - simp scan. intros H; inversion H; subst. now exists [].
  - rewrite scan_cons.
    destruct (lex_one c rest tokens) as [src' tokens'|] eqn:E; [|discriminate].
    intros H. apply IH in H as (more & -> & Hmore);
      [|now apply lex_one_shifts in E].
    apply lex_one_well_lexed in E as [->|(t & -> & Ht)].
    + now exists more.
    + exists (t :: more). unfold push. rewrite <- app_assoc. simpl.
      now rewrite Ht.
Qed.

Lemma scan_recognized src tokens :
  forallb recognized src = true -> exists out, scan src tokens = Returns out.
Proof.
  revert tokens.
  induction src as [|c rest IH] using source_induction; intros tokens H.
  - simp scan. now eexists.
  - simpl in H. apply andb_prop in H as [Hc Hrest].
    destruct (lex_one_recognized c rest tokens Hc) as (src' & tokens' & E).
    rewrite (scan_step _ _ _ _ _ E).
    apply IH; [now apply lex_one_shifts in E|].
    apply lex_one_shifts in E. eauto using forallb_suffix_of.
Qed.

Lemma scan_never_throws src tokens msg : scan src tokens <> Throws msg.
Proof.
  revert tokens.
  induction src as [|c rest IH] using source_induction; intros tokens.
  - simp scan. discriminate.
  - rewrite scan_cons.
    destruct (lex_one c rest tokens) as [src' tokens'|] eqn:E; [|discriminate].
    apply IH. now apply lex_one_shifts in E.
Qed.

(** *** Positions of the scan *)

Lemma at_position_scan sourceCode src tokens :
  at_position sourceCode src tokens -> tokenize sourceCode = scan src tokens.
Proof.
  induction 1 as [|c rest tokens src' tokens' _ IH E]; [reflexivity|].
  now rewrite IH, (scan_step _ _ _ _ _ E).
Qed.

(** Whatever [tokenize] returns starts with the tokens pushed so far. *)
Lemma at_position_output sourceCode src tokens out :
  at_position sourceCode src tokens ->
  tokenize sourceCode = Returns out ->
  exists more, out = tokens ++ more /\ scan src [] = Returns more.
Proof.
  intros Hpos Hout. rewrite (at_position_scan _ _ _ Hpos), scan_prepend in Hout.
  destruct (scan src []) as [more| |]; simpl in Hout; try discriminate.
  inversion Hout. now exists more.
Qed.


Lemma at_position_word sourceCode run rest tokens :
  at_position sourceCode (run ++ rest) tokens ->
  run <> [] -> forallb alpha run = true -> stops alpha rest ->
  at_position sourceCode rest (push tokens (token run (word_kind run))).
Proof.
  intros Hpos Hne Hall Hstop. destruct run as [|c cs]; [congruence|].
  eapply at_next; [exact Hpos|]. now apply lex_one_word.
Qed.


Lemma scan_lexeme t rest tokens :
  well_lexed t = true ->
  scan (lexeme t ++ ch " " :: rest) tokens = scan rest (push tokens t).
Proof.
  destruct t as [v ty]. unfold well_lexed, lexeme. simpl value. simpl type.
  intros H.
  assert (Hsp : forall toks, scan (ch " " :: rest) toks = scan rest toks)
    by (intros; now apply scan_skippable).
  destruct ty; try discriminate;
    try (apply jsstring_eqb_eq in H; subst v;
         first [ rewrite scan_word by (reflexivity || discriminate);
                 apply Hsp
               | unfold js; cbn [map list_ascii_of_string app];
                 erewrite scan_step by reflexivity; apply Hsp ]).
  - destruct v as [|c v]; [discriminate|].
    rewrite scan_number; [apply Hsp|discriminate|exact H|reflexivity].
  - apply andb_prop in H as [Ha Hk].
    assert (v <> []) by (destruct v; [discriminate|discriminate]).
    rewrite scan_word; [|assumption| |reflexivity].
    + rewrite Hsp. unfold word_kind. revert Hk.
      destruct (KEYWORDS v); intros Hk; [discriminate|reflexivity|reflexivity].
    + destruct v; [discriminate|exact Ha].
  - simpl. rewrite <- app_assoc. simpl. rewrite scan_string by assumption.
    apply Hsp.
  - simpl in H. bool_flat. repeat (bool_branch; bool_flat).
    all: try discriminate.
    all: match goal with
         | H : jsstring_eqb _ _ = true |- _ =>
             apply jsstring_eqb_eq in H; subst v
         end; unfold js; cbn [map list_ascii_of_string app];
         erewrite scan_step by reflexivity; apply Hsp.
Qed.

Lemma scan_spaced toks rest tokens :
  forallb well_lexed toks = true ->
  scan (spaced toks ++ rest) tokens = scan rest (tokens ++ toks).
Proof.
  revert tokens. induction toks as [|t toks IH]; intros tokens H; simpl.
  - now rewrite app_nil_r.
  - simpl in H. apply andb_prop in H as [Ht Htoks].
    rewrite <- !app_assoc. simpl.
    rewrite scan_lexeme by assumption. rewrite IH by assumption.
    unfold push. now rewrite <- app_assoc.
Qed.

(** Re-lexing the spaced lexemes gives back the very same tokens. *)
Lemma tokenize_unlex sourceCode out :
  tokenize sourceCode = Returns out -> tokenize (unlex out) = Returns out.
Proof.
  intros H. apply scan_well_lexed in H as (more & -> & Hmore).
  unfold unlex, tokenize. simpl. rewrite removelast_last.
  rewrite <- (app_nil_r (spaced more)), scan_spaced by assumption.
  now simp scan.
Qed.

Lemma at_position_iterations sourceCode n src tokens :
  iterations n sourceCode [] = Some (src, tokens) ->
  at_position sourceCode src tokens.
Proof.
  enough (H : forall a b, at_position sourceCode a b ->
                          iterations n a b = Some (src, tokens) ->
                          at_position sourceCode src tokens)
    by (apply H, at_start).
  induction n as [|n IH]; intros a b Hpos; simpl.
  - intros H; inversion H; subst. exact Hpos.
  - destruct a as [|c rest]; [discriminate|].
    destruct (lex_one c rest b) as [src' tokens'|] eqn:E; [|discriminate].
    apply IH. eapply at_next; eassumption.
Qed.

(** *** Runs that follow plain text are reached *)

Lemma separated_cons a b pre x :
  separated (a :: b :: pre) x = separated (b :: pre) x.
Proof. reflexivity. Qed.

Lemma separated_suffix_of pre' pre x :
  suffix_of pre' pre -> separated pre x -> separated pre' x.
Proof.
  intros [front ->]. induction front as [|a front IH]; [trivial|].
  intros H. apply IH. simpl in H.
  destruct (front ++ pre') eqn:E; [exact I|exact H].
Qed.

Lemma shift_while_within (p : jsstring -> bool) (q : char -> bool)
      c pre x tail :
  (forall c, p [c] = q c) ->
  (forall a b, q a = true -> q b = true -> joins a b = true) ->
  q c = true -> separated (c :: pre) x ->
  exists acc pre',
    shift_while p (c :: pre ++ x :: tail) = (acc, pre' ++ x :: tail) /\
    suffix_of pre' pre.
Proof.
  intros Hpq Hjoin. revert c. induction pre as [|c' pre IH]; intros c Hc Hsep.
  - simpl in Hsep. exists [c], []. split; [|apply suffix_of_refl].
    simpl. rewrite !Hpq, Hc.
    destruct (q x) eqn:Hx; [|reflexivity].
    rewrite (Hjoin _ _ Hc Hx) in Hsep. discriminate.
  - rewrite separated_cons in Hsep. rewrite shift_while_cons, Hpq, Hc.
    destruct (q c') eqn:Hc'.
    + destruct (IH c' Hc' Hsep) as (acc & pre' & E & Hsuf).
      change ((c' :: pre) ++ x :: tail) with (c' :: pre ++ x :: tail).
      rewrite E. simpl. exists (c :: acc), pre'. split; [reflexivity|].
      eapply suffix_of_trans; [exact Hsuf|]. now exists [c'].
    + exists [c], (c' :: pre). split; [|apply suffix_of_refl].
      simpl. now rewrite Hpq, Hc'.
Qed.

Lemma joins_digit a b : digit a = true -> digit b = true -> joins a b = true.
Proof. intros Ha Hb. unfold joins. now rewrite Ha, Hb. Qed.

Lemma joins_alpha a b : alpha a = true -> alpha b = true -> joins a b = true.
Proof. intros Ha Hb. unfold joins. rewrite Ha, Hb. apply orb_true_r. Qed.

Lemma head_is_within k pre x tail :
  digit x || alpha x = true -> k = ch "=" \/ k = ch "&" ->
  head_is k (pre ++ x :: tail) = true ->
  exists pre', pre = k :: pre'.
Proof.
  intros Hx Hk. destruct pre as [|y pre]; simpl; intros H.
  - exfalso. apply N.eqb_eq in H. subst x.
    destruct Hk as [-> | ->]; discriminate Hx.
  - apply N.eqb_eq in H. subst y. now exists pre.
Qed.

(** One iteration that starts in plain text before a run stays before
    the run. *)
Lemma lex_one_within c pre x tail tokens :
  plain (c :: pre) = true -> separated (c :: pre) x ->
  digit x || alpha x = true ->
  exists pre' tokens',
    lex_one c (pre ++ x :: tail) tokens = Next (pre' ++ x :: tail) tokens' /\
    suffix_of pre' pre.
Proof.
  intros Hplain Hsep Hx. simpl in Hplain.
  apply andb_prop in Hplain as [Hc _]. apply andb_prop in Hc as [Hrec Hnq].
  destruct (digit c) eqn:Hd.
  { destruct (shift_while_within isint digit c pre x tail
                isint_single joins_digit Hd Hsep) as (acc & pre' & E & Hsuf).
    rewrite lex_one_digit, E by exact Hd. eauto. }
  destruct (alpha c) eqn:Ha.
  { destruct (shift_while_within isalpha alpha c pre x tail
                isalpha_single joins_alpha Ha Hsep) as (acc & pre' & E & Hsuf).
    rewrite lex_one_alpha, E by exact Ha.
    destruct (KEYWORDS acc); eauto. }
  assert (Htl : forall k, k = ch "=" \/ k = ch "&" ->
                          head_is k (pre ++ x :: tail) = true ->
                          exists pre', tl (pre ++ x :: tail) = pre' ++ x :: tail
                                       /\ suffix_of pre' pre).
  { intros k Hk H. destruct (head_is_within _ _ _ _ Hx Hk H) as [pre' ->].
    exists pre'. split; [reflexivity|now exists [k]]. }
  unfold lex_one. split_ifs;
    lazymatch goal with
    | |- exists _ _, Next (?p ++ _) _ = _ /\ _ =>
        exists p; eexists; split; [reflexivity|apply suffix_of_refl]
    | H : head_is ?k _ = true |- exists _ _, Next (tl _) _ = _ /\ _ =>
        destruct (Htl k) as (pre' & -> & Hsuf); [auto|exact H|];
        exists pre'; eexists; split; [reflexivity|exact Hsuf]
    | |- _ =>
        exfalso; clear Htl Hsep Hx;
        first [ rewrite isint_single in *; congruence
              | rewrite isalpha_single in *; congruence
              | unfold not_dquote in Hnq; apply negb_true_iff in Hnq;
                congruence
              | unfold recognized, single_character, js in Hrec;
                cbn [existsb map list_ascii_of_string] in Hrec;
                repeat match goal with
                | Hf : orb _ _ = false |- _ =>
                    apply orb_false_elim in Hf as [? ?]
                end;
                repeat match goal with
                | Hf : ?b = false |- _ => rewrite Hf in Hrec
                end;
                discriminate Hrec ]
    end.
Qed.

Lemma iterations_within pre x tail tokens :
  plain pre = true -> separated pre x -> digit x || alpha x = true ->
  exists n tokens',
    iterations n (pre ++ x :: tail) tokens = Some (x :: tail, tokens').
Proof.
  revert tokens. induction pre as [|c pre IH] using source_induction;
    intros tokens Hplain Hsep Hx.
  - now exists O, tokens.
  - destruct (lex_one_within c pre x tail tokens Hplain Hsep Hx)
      as (pre' & tokens' & E & Hsuf).
    destruct (IH pre' Hsuf tokens') as (n & tokens'' & Hn); auto.
    + simpl in Hplain. apply andb_prop in Hplain as [_ Hplain].
      eapply forallb_suffix_of; eassumption.
    + eapply separated_suffix_of; [|exact Hsep].
      eapply suffix_of_trans; [exact Hsuf|]. now exists [c].
    + exists (S n), tokens''. simpl. now rewrite E.
Qed.

(** A run of digits or letters that follows plain text, and is cut off
    from it, is a position of the scan. *)
Lemma run_is_reached pre x tail :
  plain pre = true -> separated pre x -> digit x || alpha x = true ->
  exists tokens, at_position (pre ++ x :: tail) (x :: tail) tokens.
Proof.
  intros Hplain Hsep Hx.
  destruct (iterations_within pre x tail [] Hplain Hsep Hx) as (n & toks & H).
  exists toks. eapply at_position_iterations. exact H.
Qed.

Lemma separated_snoc pre a x : separated (pre ++ [a]) x <-> joins a x = false.
Proof.
  induction pre as [|b pre IH]; [reflexivity|].
  simpl. destruct (pre ++ [a]) eqn:E; [now destruct pre|exact IH].
Qed.

Lemma separated_rev (q : char -> bool) pre x :
  (forall a, joins a x = q a) -> stops q (rev pre) -> separated pre x.
Proof.
  intros Hq. destruct pre as [|b pre] using rev_ind; [trivial|].
  rewrite rev_app_distr. simpl. intros H.
  apply separated_snoc. now rewrite Hq.
Qed.


Lemma joins_alpha_r a x : alpha x = true -> joins a x = alpha a.
Proof.
  intros Hx. unfold joins. rewrite Hx, andb_true_r.
  destruct (alpha a) eqn:Ha; [apply orb_true_r|]. rewrite orb_false_r.
  destruct (digit x) eqn:Hdx; [|apply andb_false_r].
  exfalso. clear Ha. class_arith.
Qed.

(** A maximal run of digits or of letters that follows plain text is a
    position of the scan. *)
Lemma maximal_run_is_position (q : char -> bool) pre run rest :
  (forall a x, q x = true -> joins a x = q a) ->
  (forall x, q x = true -> digit x || alpha x = true) ->
  plain pre = true -> stops q (rev pre) ->
  run <> [] -> forallb q run = true ->
  exists tokens, at_position (pre ++ run ++ rest) (run ++ rest) tokens.
Proof.
  intros Hjoin Hclass Hplain Hleft Hne Hall.
  destruct run as [|x run]; [congruence|].
  simpl in Hall. apply andb_prop in Hall as [Hx _].
  apply run_is_reached; auto.
  apply (separated_rev q); auto.
Qed.

(** * The lexer's contract *)

Lemma well_lexed_not_eof t :
  well_lexed t = true -> TokenType.eqb (type t) TokenType.EOF = false.
Proof. destruct t as [v ty]. unfold well_lexed. simpl. now destruct ty. Qed.

Lemma count_kind_eof_well_lexed more :
  forallb well_lexed more = true ->
  count_kind TokenType.EOF (more ++ [eof]) = 1%nat.
Proof.
  unfold count_kind. induction more as [|t more IH]; simpl; intros H.
  - reflexivity.
  - apply andb_prop in H as [Ht Hmore].
    rewrite (well_lexed_not_eof _ Ht). now apply IH.
Qed.

(** C1. For every source text made of recognized characters only,
    [tokenize] returns (the loop is a total function, so it always ends),
    the last token it returns is the end-of-input token, and exactly one
    token of the returned sequence has the end-of-input kind. *)
Theorem tokenize_ends_with_one_eof (sourceCode : jsstring) :
  forallb recognized sourceCode = true ->
  exists toks,
    tokenize sourceCode = Returns (toks ++ [eof]) /\
    count_kind TokenType.EOF (toks ++ [eof]) = 1%nat.
Proof.
  intros H. destruct (scan_recognized sourceCode [] H) as [out Hout].
  destruct (scan_well_lexed _ _ _ Hout) as (more & -> & Hmore).
  exists more. split; [exact Hout|]. now apply count_kind_eof_well_lexed.
Qed.

Lemma tokenize_ends_with_one_eof_witness :
  forallb recognized (js "let x = (1 + y) & z;") = true /\
  exists toks,
    tokenize (js "let x = (1 + y) & z;") = Returns (toks ++ [eof]) /\
    count_kind TokenType.EOF (toks ++ [eof]) = 1%nat.
Proof.
  split; [reflexivity|].
  apply (tokenize_ends_with_one_eof (js "let x = (1 + y) & z;")).
  reflexivity.
Defined.

(** C2, as worded, fails on a string literal: the text of a string token
    leaves the quotes out, so the one-letter string literal lexes back as
    an identifier. *)
Lemma raw_round_trip_fails_on_string :
  let sourceCode := dquote :: js "a" ++ [dquote] in
  tokenize sourceCode = Returns [token (js "a") TokenType.String; eof] /\
  tokenize (raw_text [token (js "a") TokenType.String; eof])
  = Returns [token (js "a") TokenType.Identifier; eof] /\
  ~ raw_round_trip sourceCode.
Proof.
  cbv zeta. split; [reflexivity|]. split; [reflexivity|].
  intros H. destruct (H _ eq_refl) as (out' & Hout' & Hkinds).
  vm_compute in Hout'. inversion Hout'; subst out'. discriminate Hkinds.
Qed.

(** It also fails without any string literal: the space between two
    words is not part of either token, and the concatenated texts are one
    word. *)
Lemma raw_round_trip_fails_on_space : ~ raw_round_trip (js "a b").
Proof.
  intros H. destruct (H _ eq_refl) as (out' & Hout' & Hkinds).
  vm_compute in Hout'. inversion Hout'; subst out'. discriminate Hkinds.
Qed.

(** C2, amended.  For every source text that [tokenize] accepts, writing
    each token before the end marker back as its lexeme (a string literal
    between its quotes) followed by a space, and lexing that text, yields
    the same kinds, and in fact the same tokens. *)
Theorem spaced_lexemes_round_trip (sourceCode : jsstring) (out : list Token) :
  tokenize sourceCode = Returns out ->
  exists out',
    tokenize (unlex out) = Returns out' /\ kinds out' = kinds out /\ out' = out.
Proof.
  intros H. exists out. split; [|split]; try reflexivity.
  exact (tokenize_unlex _ _ H).
Qed.

Lemma spaced_lexemes_round_trip_witness :
  let sourceCode := js "x =" ++ dquote :: js "b c" ++ [dquote] in
  let out := [token (js "x") TokenType.Identifier;
              token (js "=") TokenType.Equals;
              token (js "b c") TokenType.String; eof] in
  tokenize sourceCode = Returns out /\
  exists out',
    tokenize (unlex out) = Returns out' /\ kinds out' = kinds out /\ out' = out.
Proof.
  cbv zeta. split; [reflexivity|].
  apply (spaced_lexemes_round_trip (js "x =" ++ dquote :: js "b c" ++ [dquote])).
  reflexivity.
Defined.

(** C3, as worded, fails: on an unrecognized character [tokenize] calls
    [process.exit(1)]; nothing comes back to the caller, neither a token
    sequence nor an error value. *)
Lemma unrecognized_character_ends_process :
  recognized (ch "#") = false /\
  at_position (js "#") (js "#") [] /\
  tokenize (js "#")
  = Exits 1 [ArgStr unrecognized_message; ArgNum 35; ArgStr (js "#")] /\
  ~ comes_back (tokenize (js "#")).
Proof.
  split; [reflexivity|]. split; [apply at_start|]. split; [reflexivity|].
  intros H. exact H.
Qed.

(** C3, amended.  When the loop of [tokenize] comes to a character outside
    every recognized class, it writes the unrecognized-character message
    with the character's code and the character itself to the error
    console and ends the process with status 1: tokenization of the whole
    input stops and the tokens pushed so far are not returned. *)
Theorem unrecognized_character_halts
  (sourceCode : jsstring) (c : char) (rest : list char) (tokens : list Token) :
  at_position sourceCode (c :: rest) tokens ->
  recognized c = false ->
  tokenize sourceCode
  = Exits 1 [ArgStr unrecognized_message; ArgNum c; ArgStr [c]].
Proof.
  intros Hpos Hc. rewrite (at_position_scan _ _ _ Hpos).
  apply scan_halt. now apply lex_one_unrecognized.
Qed.

Lemma unrecognized_character_halts_witness :
  at_position (js "x #") (js "#") [token (js "x") TokenType.Identifier] /\
  recognized (ch "#") = false /\
  tokenize (js "x #")
  = Exits 1 [ArgStr unrecognized_message; ArgNum (ch "#"); ArgStr [ch "#"]].
Proof.
  assert (Hpos : at_position (js "x #") (js "#")
                   [token (js "x") TokenType.Identifier])
    by (apply (at_position_iterations _ 2); reflexivity).
  split; [exact Hpos|]. split; [reflexivity|].
  apply (unrecognized_character_halts (js "x #") (ch "#") []
           [token (js "x") TokenType.Identifier]); [exact Hpos|reflexivity].
Defined.

Lemma at_position_emits sourceCode c src tokens t rest :
  at_position sourceCode (c :: src) tokens ->
  lex_one c src tokens = Next rest (push tokens t) ->
  emits sourceCode tokens t rest.
Proof.
  intros Hpos E.
  assert (Hnext : at_position sourceCode rest (push tokens t))
    by (eapply at_next; eassumption).
  split; [exact Hnext|]. intros out Hout.
  destruct (at_position_output _ _ _ _ Hnext Hout) as (more & -> & _).
  exists more. unfold push. now rewrite <- app_assoc.
Qed.

(** C4.  At a [=], [&] or [!] the loop looks one character ahead: [=]
    followed by [=] is pushed as one equality-compare token and [=]
    followed by anything else (or by nothing) as an assignment token;
    likewise [&&] against [&], and [!=] against [!].  [>] and [<] are
    pushed as one-character tokens whatever follows them.  In each case
    the loop goes on behind the operator, and the token is the one that
    follows the earlier tokens in what [tokenize] returns. *)
Theorem two_character_operators
  (sourceCode : jsstring) (rest : list char) (tokens : list Token) :
  (at_position sourceCode (ch "=" :: ch "=" :: rest) tokens ->
   emits sourceCode tokens (token (js "==") TokenType.EqualsCompare) rest) /\
  (at_position sourceCode (ch "=" :: rest) tokens ->
   stops (fun c => c =? ch "=") rest ->
   emits sourceCode tokens (token (js "=") TokenType.Equals) rest) /\
  (at_position sourceCode (ch "&" :: ch "&" :: rest) tokens ->
   emits sourceCode tokens (token (js "&&") TokenType.And) rest) /\
  (at_position sourceCode (ch "&" :: rest) tokens ->
   stops (fun c => c =? ch "&") rest ->
   emits sourceCode tokens (token (js "&") TokenType.Ampersand) rest) /\
  (at_position sourceCode (ch "!" :: ch "=" :: rest) tokens ->
   emits sourceCode tokens (token (js "!=") TokenType.NotEqualsCompare) rest) /\
  (at_position sourceCode (ch "!" :: rest) tokens ->
   stops (fun c => c =? ch "=") rest ->
   emits sourceCode tokens (token (js "!") TokenType.Exclamation) rest) /\
  (at_position sourceCode (ch ">" :: rest) tokens ->
   emits sourceCode tokens (token (js ">") TokenType.Greater) rest) /\
  (at_position sourceCode (ch "<" :: rest) tokens ->
   emits sourceCode tokens (token (js "<") TokenType.Lesser) rest).
Proof.
  assert (Hhead : forall k src, stops (fun c => c =? k) src -> head_is k src = false)
    by (intros k [|x src] H; [reflexivity|exact H]).
  repeat match goal with |- _ /\ _ => split end;
    intros Hpos; try intros Hstop;
    (eapply at_position_emits; [exact Hpos|]);
    try reflexivity;
    rewrite ?lex_one_equals, ?lex_one_ampersand, ?lex_one_exclamation;
    now rewrite (Hhead _ _ Hstop).
Qed.

Lemma two_character_operators_witness :
  emits (js "==1") [] (token (js "==") TokenType.EqualsCompare) (js "1") /\
  emits (js "=1") [] (token (js "=") TokenType.Equals) (js "1") /\
  emits (js "&&b") [] (token (js "&&") TokenType.And) (js "b") /\
  emits (js "&b") [] (token (js "&") TokenType.Ampersand) (js "b") /\
  emits (js "!=b") [] (token (js "!=") TokenType.NotEqualsCompare) (js "b") /\
  emits (js "!b") [] (token (js "!") TokenType.Exclamation) (js "b") /\
  emits (js ">=1") [] (token (js ">") TokenType.Greater) (js "=1") /\
  emits (js "<=1") [] (token (js "<") TokenType.Lesser) (js "=1") /\
  (tokenize (js "a==b")
   = Returns [token (js "a") TokenType.Identifier;
              token (js "==") TokenType.EqualsCompare;
              token (js "b") TokenType.Identifier; eof] /\
   exists more,
     [token (js "a") TokenType.Identifier;
      token (js "==") TokenType.EqualsCompare;
      token (js "b") TokenType.Identifier; eof]
     = [token (js "a") TokenType.Identifier]
         ++ token (js "==") TokenType.EqualsCompare :: more).
Proof.
  split; [|split; [|split; [|split; [|split; [|split; [|split; [|split]]]]]]].
  - apply (two_character_operators (js "==1") (js "1") []), at_start.
  - apply (two_character_operators (js "=1") (js "1") []);
      [apply at_start|reflexivity].
  - apply (two_character_operators (js "&&b") (js "b") []), at_start.
  - apply (two_character_operators (js "&b") (js "b") []);
      [apply at_start|reflexivity].
  - apply (two_character_operators (js "!=b") (js "b") []), at_start.
  - apply (two_character_operators (js "!b") (js "b") []);
      [apply at_start|reflexivity].
  - apply (two_character_operators (js ">=1") (js "=1") []), at_start.
  - apply (two_character_operators (js "<=1") (js "=1") []), at_start.
  - split; [reflexivity|].
    destruct (proj1 (two_character_operators (js "a==b") (js "b")
                       [token (js "a") TokenType.Identifier]))
      as [_ Hout].
    + apply (at_position_iterations _ 1). reflexivity.
    + apply Hout. reflexivity.
Defined.

Lemma tokens_of_output sourceCode out t :
  tokenize sourceCode = Returns out -> In t out ->
  t = eof \/ well_lexed t = true.
Proof.
  intros Hout Hin. apply scan_well_lexed in Hout as (more & -> & Hmore).
  simpl in Hin. apply in_app_or in Hin as [Hin|[<-|[]]]; [right|now left].
  rewrite forallb_forall in Hmore. now apply Hmore.
Qed.



Lemma word_kind_cases run :
  (run = js "let" /\ word_kind run = TokenType.Let) \/
  (run = js "const" /\ word_kind run = TokenType.Const) \/
  (run = js "fn" /\ word_kind run = TokenType.Fn) \/
  (run = js "if" /\ word_kind run = TokenType.If) \/
  (run = js "else" /\ word_kind run = TokenType.Else) \/
  (run = js "for" /\ word_kind run = TokenType.For) \/
  (~ In run [js "let"; js "const"; js "fn"; js "if"; js "else"; js "for"] /\
   word_kind run = TokenType.Identifier).
Proof.
  unfold word_kind, KEYWORDS, KEYWORDS_own, own_property.
  repeat match goal with
  | |- context [if jsstring_eqb run ?k then _ else _] =>
      let E := fresh "E" in
      destruct (jsstring_eqb run k) eqn:E;
      [apply jsstring_eqb_eq in E; subst run; auto 10|]
  end.
  do 6 right. split; [|now destruct (existsb _ _)].
  intros Hin. simpl in Hin.
  repeat match goal with
  | H : _ \/ _ |- _ => destruct H
  | H : js _ = run |- _ => subst run; discriminate
  | H : False |- _ => destruct H
  end.
Qed.

(** C6.  When the loop stands at a run of letters and underscores that
    ends where the source ends or where another kind of character
    follows, it pushes exactly one token whose text is the run and goes
    on behind the run, so that this token follows the earlier ones in
    what [tokenize] returns.  The token has the kind of a keyword exactly
    when the whole run is that keyword, letter for letter ([let],
    [const], [fn], [if], [else], [for]), and is an identifier exactly
    when the run is none of the six.  The loop does stand at every
    maximal run of letters and underscores of the source before which
    there is neither a double quote nor an unrecognized character. *)
Theorem word_tokens :
  (forall sourceCode run rest tokens,
      at_position sourceCode (run ++ rest) tokens ->
      run <> [] -> forallb alpha run = true -> stops alpha rest ->
      exists kind,
        emits sourceCode tokens (token run kind) rest /\
        (kind = TokenType.Let <-> run = js "let") /\
        (kind = TokenType.Const <-> run = js "const") /\
        (kind = TokenType.Fn <-> run = js "fn") /\
        (kind = TokenType.If <-> run = js "if") /\
        (kind = TokenType.Else <-> run = js "else") /\
        (kind = TokenType.For <-> run = js "for") /\
        (kind = TokenType.Identifier <->
         ~ In run [js "let"; js "const"; js "fn"; js "if"; js "else";
                   js "for"])) /\
  (forall pre run rest,
      plain pre = true -> stops alpha (rev pre) ->
      run <> [] -> forallb alpha run = true -> stops alpha rest ->
      exists tokens, at_position (pre ++ run ++ rest) (run ++ rest) tokens).
Proof.
  split.
  - intros sourceCode run rest tokens Hpos Hne Hall Hstop.
    exists (word_kind run). split.
    { destruct run as [|c cs]; [congruence|].
      eapply at_position_emits; [exact Hpos|]. now apply lex_one_word. }
    destruct (word_kind_cases run)
      as [[-> ->]|[[-> ->]|[[-> ->]|[[-> ->]|[[-> ->]|[[-> ->]|[Hnot ->]]]]]]].
    1-6: repeat split; intros H; try reflexivity; try discriminate H;
         try (exfalso; apply H; simpl; auto 10).
    repeat split; intros H; try discriminate H; try assumption;
      try reflexivity; exfalso; apply Hnot; subst run; simpl; auto 10.
  - intros pre run rest Hplain Hleft Hne Hall _.
    apply (maximal_run_is_position alpha); auto using joins_alpha_r.
    intros x Hx. rewrite Hx. apply orb_true_r.
Qed.

Lemma word_tokens_witness :
  (exists kind,
      emits (js "let x") [] (token (js "let") kind) (js " x") /\
      kind = TokenType.Let) /\
  (exists kind,
      emits (js "letter=1") [] (token (js "letter") kind) (js "=1") /\
      kind = TokenType.Identifier) /\
  (exists kind,
      emits (js "Let") [] (token (js "Let") kind) [] /\
      kind = TokenType.Identifier) /\
  (exists kind more,
      tokenize (js "x=if")
      = Returns ([token (js "x") TokenType.Identifier;
                  token (js "=") TokenType.Equals]
                   ++ token (js "if") kind :: more) /\
      kind = TokenType.If) /\
  (exists tokens, at_position (js "if (x1 == for") (js "for") tokens).
Proof.
  destruct word_tokens as [Hrule Hreached].
  split; [|split; [|split; [|split]]].
  - destruct (Hrule (js "let x") (js "let") (js " x") [])
      as (kind & Hemits & Hlet & _);
      [apply at_start|discriminate|reflexivity|reflexivity|].
    exists kind. split; [exact Hemits|]. now apply Hlet.
  - destruct (Hrule (js "letter=1") (js "letter") (js "=1") [])
      as (kind & Hemits & _ & _ & _ & _ & _ & _ & Hident);
      [apply at_start|discriminate|reflexivity|reflexivity|].
    exists kind. split; [exact Hemits|]. apply Hident. simpl.
    intros H. repeat destruct H as [H|H]; try discriminate H. exact H.
  - destruct (Hrule (js "Let") (js "Let") [] [])
      as (kind & Hemits & _ & _ & _ & _ & _ & _ & Hident);
      [apply at_start|discriminate|reflexivity|exact I|].
    exists kind. split; [exact Hemits|]. apply Hident. simpl.
    intros H. repeat destruct H as [H|H]; try discriminate H. exact H.
  - destruct (Hrule (js "x=if") (js "if") []
                [token (js "x") TokenType.Identifier;
                 token (js "=") TokenType.Equals])
      as (kind & [_ Hout] & _ & _ & _ & Hif & _);
      [apply (at_position_iterations _ 2); reflexivity
      |discriminate|reflexivity|exact I|].
    destruct (Hout _ eq_refl) as [more Hmore].
    exists kind, more. split; [|now apply Hif].
    rewrite <- Hmore. reflexivity.
  - apply (Hreached (js "if (x1 == ") (js "for") []);
      [reflexivity|reflexivity|discriminate|reflexivity|exact I].
Defined.



(** C10.  When the loop stands at a double quote and no double quote
    follows up to the end of the source, [tokenize] reports no error: it
    returns the tokens pushed before, then one string literal token whose
    text is everything behind the quote, then the end-of-input token. *)
Theorem unterminated_string
  (sourceCode body : jsstring) (tokens : list Token) :
  at_position sourceCode (dquote :: body) tokens ->
  forallb not_dquote body = true ->
  tokenize sourceCode
  = Returns (tokens ++ [token body TokenType.String; eof]).
Proof.
  intros Hpos Hall. rewrite (at_position_scan _ _ _ Hpos).
  rewrite scan_string_open by assumption.
  unfold push. now rewrite <- app_assoc.
Qed.

Lemma unterminated_string_witness :
  let sourceCode := js "x = " ++ dquote :: js "abc # 1" in
  let before := [token (js "x") TokenType.Identifier;
                 token (js "=") TokenType.Equals] in
  at_position sourceCode (dquote :: js "abc # 1") before /\
  tokenize sourceCode
  = Returns (before ++ [token (js "abc # 1") TokenType.String; eof]).
Proof.
  cbv zeta.
  assert (Hpos : at_position (js "x = " ++ dquote :: js "abc # 1")
                   (dquote :: js "abc # 1")
                   [token (js "x") TokenType.Identifier;
                    token (js "=") TokenType.Equals])
    by (apply (at_position_iterations _ 4); reflexivity).
  split; [exact Hpos|].
  apply (unterminated_string (js "x = " ++ dquote :: js "abc # 1")
           (js "abc # 1")); [exact Hpos|reflexivity].
Defined.

(** * The host's contract *)

Lemma startsWith_spec s p : startsWith s p = true <-> exists post, s = p ++ post.
Proof.
  revert s. induction p as [|y p IH]; intros s.
  - destruct s; simpl; split; eauto.
  - destruct s as [|x s]; simpl.
    + split; [discriminate|]. intros [post H]. discriminate H.
    + rewrite andb_true_iff, N.eqb_eq, IH. split.
      * intros [-> [post ->]]. now exists post.
      * intros [post H]. inversion H; subst. eauto.
Qed.

Lemma endsWith_spec s p : endsWith s p = true <-> exists pre, s = pre ++ p.
Proof.
  unfold endsWith. rewrite startsWith_spec. split.
  - intros [post H]. exists (rev post).
    rewrite <- (rev_involutive s), H, rev_app_distr, rev_involutive.
    reflexivity.
  - intros [pre ->]. exists (rev pre). now rewrite rev_app_distr.
Qed.

Lemma includes_spec s p :
  includes s p = true <-> exists pre post, s = pre ++ p ++ post.
Proof.
  induction s as [|x s IH].
  - change (includes [] p) with (startsWith [] p || false).
    rewrite orb_false_r, startsWith_spec. split.
    + intros [post H]. now exists [], post.
    + intros (pre & post & H). destruct pre; [now exists post|discriminate].
  - change (includes (x :: s) p)
      with (startsWith (x :: s) p || includes s p).
    rewrite orb_true_iff, startsWith_spec, IH. split.
    + intros [[post H]|(pre & post & H)].
      * now exists [], post.
      * exists (x :: pre), post. now rewrite H.
    + intros (pre & post & H). destruct pre as [|y pre].
      * left. now exists post.
      * right. inversion H; subst. now exists pre, post.
Qed.

Lemma exit_requested_spec input :
  exit_requested input = true <->
  input = [] \/ exists pre post, input = pre ++ js "exit" ++ post.
Proof.
  unfold exit_requested. rewrite orb_true_iff, includes_spec.
  destruct input; simpl; split; intros [H|H]; auto; discriminate.
Qed.

Section HostFacts.

Variables Parser Env Program Value : Type.
Variable new_Parser : Parser.
Variable createGlobalEnv : Env.
Variable readFileSync : jsstring -> Outcome jsstring.
Variable transcribe : jsstring -> Outcome jsstring.
Variable produceAST : Parser -> jsstring -> Outcome (Program * Parser).
Variable evaluate : Program -> Env -> Outcome (Value * Env).

Local Abbreviation run_ :=
  (run new_Parser createGlobalEnv readFileSync transcribe produceAST evaluate).
Local Abbreviation repl_turn_ := (repl_turn transcribe produceAST evaluate).
Local Abbreviation repl_loop_ := (repl_loop transcribe produceAST evaluate).

(** C8, amended.  One turn of the interactive loop asks for a line.
    The loop itself ends the process, with status 1 and without running
    anything, exactly when the line is empty or contains [exit].  Every
    other line is transcribed, parsed and evaluated; when these three
    return, the value is printed and the loop goes on with the next
    line; when one of them throws or ends the process, nothing catches
    it: the turn fails in the same way and the loop reads no further
    line. *)
Theorem repl_turn_outcomes
  (input : jsstring) (parser : Parser) (env : Env) :
  (exit_requested input = true <->
   input = [] \/ exists pre post, input = pre ++ js "exit" ++ post) /\
  (exit_requested input = true ->
   repl_turn_ input parser env
   = {| outcome := Exits 1 []; calls := [call_question (js "> ")] |}) /\
  (exit_requested input = false ->
   forall input' program parser' result env',
     transcribe input = Returns input' ->
     produceAST parser input' = Returns (program, parser') ->
     evaluate program env = Returns (result, env') ->
     (repl_turn_ input parser env
      = {| outcome := Returns (parser', env');
           calls := [call_question (js "> "); call_transcribe input;
                     call_produceAST input'; call_evaluate program;
                     call_log result] |}) /\
     forall lines,
       outcome (repl_loop_ (input :: lines) parser env)
       = outcome (repl_loop_ lines parser' env')) /\
  (exit_requested input = false ->
   forall f,
     (failure (transcribe input) = Some f \/
      (exists input',
          transcribe input = Returns input' /\
          (failure (produceAST parser input') = Some f \/
           exists program parser',
             produceAST parser input' = Returns (program, parser') /\
             failure (evaluate program env) = Some f))) ->
     failure (outcome (repl_turn_ input parser env)) = Some f /\
     forall lines,
       repl_loop_ (input :: lines) parser env
       = {| outcome := outcome (repl_turn_ input parser env);
            calls := calls (repl_turn_ input parser env) |} /\
       failure (outcome (repl_loop_ (input :: lines) parser env)) = Some f).
Proof.
  split; [apply exit_requested_spec|]. split; [|split].
  - intros Hexit. unfold repl_turn. now rewrite Hexit.
  - intros Hexit input' program parser' result env' Ht Hp He.
    assert (Hturn : repl_turn_ input parser env
                    = {| outcome := Returns (parser', env');
                         calls := [call_question (js "> ");
                                   call_transcribe input;
                                   call_produceAST input';
                                   call_evaluate program;
                                   call_log result] |}).
    { unfold repl_turn. rewrite Hexit. unfold bind, call. simpl.
      rewrite Ht. simpl. rewrite Hp. simpl. rewrite He. reflexivity. }
    split; [exact Hturn|]. intros lines.
    change (repl_loop_ (input :: lines) parser env)
      with (bind (repl_turn_ input parser env)
              (fun x => let (parser, env) := x in repl_loop_ lines parser env)).
    rewrite Hturn. reflexivity.
  - intros Hexit f Hfail.
    assert (Hturn : failure (outcome (repl_turn_ input parser env)) = Some f).
    { unfold repl_turn. rewrite Hexit. unfold bind, call. simpl.
      destruct Hfail as [Ht|(input' & Ht & [Hp|(program & parser' & Hp & He)])].
      - destruct (transcribe input); simpl in *; congruence.
      - rewrite Ht. simpl.
        destruct (produceAST parser input'); simpl in *; congruence.
      - rewrite Ht. simpl. rewrite Hp. simpl.
        destruct (evaluate program env); simpl in *; congruence. }
    split; [exact Hturn|]. intros lines.
    assert (Hloop : repl_loop_ (input :: lines) parser env
                    = {| outcome := outcome (repl_turn_ input parser env);
                         calls := calls (repl_turn_ input parser env) |}).
    { change (repl_loop_ (input :: lines) parser env)
        with (bind (repl_turn_ input parser env)
                (fun x => let (parser, env) := x in
                          repl_loop_ lines parser env)).
      unfold bind.
      destruct (outcome (repl_turn_ input parser env));
        [discriminate Hturn|reflexivity|reflexivity]. }
    split; [exact Hloop|]. rewrite Hloop. exact Hturn.
Qed.

(** C9, amended.  [run] processes a file exactly when its name ends with
    the three characters [cbs]; no dot is asked for.  For every other
    name it returns at once, with no value and no error, without
    reading, transcribing, parsing or evaluating anything.  For a name
    that ends with [cbs] it reads the file first, and when reading,
    transcribing, parsing and evaluating all return, it returns the
    value of the program. *)
Theorem run_suffix_gate (filename : jsstring) :
  (endsWith filename (js "cbs") = true <->
   exists stem, filename = stem ++ js "cbs") /\
  (endsWith filename (js "cbs") = false ->
   run_ filename = {| outcome := Returns None; calls := [] |}) /\
  (endsWith filename (js "cbs") = true ->
   (exists more, calls (run_ filename) = call_readFileSync filename :: more) /\
   forall input input' program parser result env,
     readFileSync filename = Returns input ->
     transcribe input = Returns input' ->
     produceAST new_Parser input' = Returns (program, parser) ->
     evaluate program createGlobalEnv = Returns (result, env) ->
     run_ filename
     = {| outcome := Returns (Some result);
          calls := [call_readFileSync filename; call_transcribe input;
                    call_produceAST input'; call_evaluate program] |}).
Proof.
  split; [apply endsWith_spec|]. split.
  - intros H. unfold run. now rewrite H.
  - intros H. unfold run. rewrite H. simpl. split.
    + unfold bind at 1. unfold call at 1. simpl.
      destruct (readFileSync filename); simpl; eauto.
    + intros input input' program parser result env Hr Ht Hp He.
      unfold bind, call. simpl. rewrite Hr. simpl. rewrite Ht. simpl.
      rewrite Hp. simpl. rewrite He. reflexivity.
Qed.

End HostFacts.

Lemma repl_turn_outcomes_witness :
  (exit_requested (js "do exit now") = true /\
   repl_turn identity_transcribe lexing_parser counting_evaluate
     (js "do exit now") tt tt
   = {| outcome := Exits 1 []; calls := [call_question (js "> ")] |}) /\
  (exit_requested (js "1 + 2") = false /\
   repl_turn identity_transcribe lexing_parser counting_evaluate
     (js "1 + 2") tt tt
   = {| outcome := Returns (tt, tt);
        calls := [call_question (js "> "); call_transcribe (js "1 + 2");
                  call_produceAST (js "1 + 2");
                  call_evaluate [token (js "1") TokenType.Number;
                                 token (js "+") TokenType.BinaryOperator;
                                 token (js "2") TokenType.Number; eof];
                  call_log 4%nat] |}) /\
  (exit_requested (js "1 @ 2") = false /\
   failure (outcome (repl_turn identity_transcribe lexing_parser
                       counting_evaluate (js "1 @ 2") tt tt))
   = Some (inr (1%Z, [ArgStr unrecognized_message; ArgNum (ch "@");
                      ArgStr (js "@")]))).
Proof.
  split; [|split].
  - split; [reflexivity|].
    exact (proj1 (proj2 (repl_turn_outcomes unit unit (list Token) nat
                           identity_transcribe lexing_parser counting_evaluate
                           (js "do exit now") tt tt)) eq_refl).
  - split; [reflexivity|].
    destruct (repl_turn_outcomes unit unit (list Token) nat
                identity_transcribe lexing_parser counting_evaluate
                (js "1 + 2") tt tt) as (_ & _ & Hgoes & _).
    exact (proj1 (Hgoes eq_refl (js "1 + 2")
                    [token (js "1") TokenType.Number;
                     token (js "+") TokenType.BinaryOperator;
                     token (js "2") TokenType.Number; eof]
                    tt 4%nat tt eq_refl eq_refl eq_refl)).
  - split; [reflexivity|].
    destruct (repl_turn_outcomes unit unit (list Token) nat
                identity_transcribe lexing_parser counting_evaluate
                (js "1 @ 2") tt tt) as (_ & _ & _ & Hfails).
    apply (Hfails eq_refl).
    right. exists (js "1 @ 2"). split; [reflexivity|]. left. reflexivity.
Defined.

(** C8, as worded, fails: the line [#] is not empty and does not contain
    [exit], yet the process ends with status 1 in that turn, through the
    lexer's [process.exit(1)], and the loop never reads the next line. *)
Lemma repl_ends_on_unrecognized_character :
  exit_requested (js "#") = false /\
  repl_turn identity_transcribe lexing_parser counting_evaluate (js "#") tt tt
  = {| outcome := Exits 1 [ArgStr unrecognized_message; ArgNum 35;
                           ArgStr (js "#")];
       calls := [call_question (js "> "); call_transcribe (js "#");
                 call_produceAST (js "#")] |} /\
  repl_loop identity_transcribe lexing_parser counting_evaluate
    [js "#"; js "1 + 2"] tt tt
  = repl_turn identity_transcribe lexing_parser counting_evaluate (js "#") tt tt.
Proof. repeat split; reflexivity. Qed.

Lemma run_suffix_gate_witness :
  (endsWith (js "notes.txt") (js "cbs") = false /\
   run tt tt constant_file identity_transcribe lexing_parser counting_evaluate
     (js "notes.txt")
   = {| outcome := Returns None; calls := [] |}) /\
  (endsWith (js "main.cbs") (js "cbs") = true /\
   run tt tt constant_file identity_transcribe lexing_parser counting_evaluate
     (js "main.cbs")
   = {| outcome := Returns (Some 4%nat);
        calls := [call_readFileSync (js "main.cbs");
                  call_transcribe (js "1 + 2"); call_produceAST (js "1 + 2");
                  call_evaluate [token (js "1") TokenType.Number;
                                 token (js "+") TokenType.BinaryOperator;
                                 token (js "2") TokenType.Number; eof]] |}).
Proof.
  split.
  - split; [reflexivity|].
    exact (proj1 (proj2 (run_suffix_gate unit unit (list Token) nat tt tt
                           constant_file identity_transcribe lexing_parser
                           counting_evaluate (js "notes.txt"))) eq_refl).
  - split; [reflexivity|].
    destruct (run_suffix_gate unit unit (list Token) nat tt tt
                constant_file identity_transcribe lexing_parser
                counting_evaluate (js "main.cbs")) as (_ & _ & Hruns).
    exact (proj2 (Hruns eq_refl) (js "1 + 2") (js "1 + 2")
             [token (js "1") TokenType.Number;
              token (js "+") TokenType.BinaryOperator;
              token (js "2") TokenType.Number; eof]
             tt 4%nat tt eq_refl eq_refl eq_refl eq_refl).
Defined.

(** C9, as worded, fails: the name [abcbs] has no extension, yet [run]
    reads, transcribes, parses and evaluates the file. *)
Lemma run_processes_name_without_extension :
  has_extension_cbs (js "abcbs") = false /\
  run tt tt constant_file identity_transcribe lexing_parser counting_evaluate
    (js "abcbs")
  = {| outcome := Returns (Some 4%nat);
       calls := [call_readFileSync (js "abcbs");
                 call_transcribe (js "1 + 2"); call_produceAST (js "1 + 2");
                 call_evaluate [token (js "1") TokenType.Number;
                                token (js "+") TokenType.BinaryOperator;
                                token (js "2") TokenType.Number; eof]] |}.
Proof. split; reflexivity. Qed.

(** * Further properties of the lexer *)

(** ** Scanning plain text does not depend on what follows it *)

Lemma shift_while_local (p : jsstring -> bool) (q : char -> bool)
      c pre x tail :
  (forall c, p [c] = q c) ->
  (forall a b, q a = true -> q b = true -> joins a b = true) ->
  q c = true -> separated (c :: pre) x ->
  exists acc pre',
    shift_while p (c :: pre ++ x :: tail) = (acc, pre' ++ x :: tail) /\
    shift_while p (c :: pre) = (acc, pre') /\
    suffix_of pre' pre.
Proof.
  intros Hpq Hjoin. revert c. induction pre as [|c' pre IH]; intros c Hc Hsep.
  - simpl in Hsep. exists [c], []. repeat split; [| |apply suffix_of_refl].
    + simpl. rewrite !Hpq, Hc.
      destruct (q x) eqn:Hx; [|reflexivity].
      rewrite (Hjoin _ _ Hc Hx) in Hsep. discriminate.
    + simpl. now rewrite Hpq, Hc.
  - rewrite separated_cons in Hsep.
    rewrite (shift_while_cons p c ((c' :: pre) ++ x :: tail)),
            (shift_while_cons p c (c' :: pre)), !Hpq, !Hc.
    destruct (q c') eqn:Hc'.
    + destruct (IH c' Hc' Hsep) as (acc & pre' & E & E' & Hsuf).
      change ((c' :: pre) ++ x :: tail) with (c' :: pre ++ x :: tail).
      rewrite E, E'. simpl. exists (c :: acc), pre'. repeat split.
      eapply suffix_of_trans; [exact Hsuf|]. now exists [c'].
    + exists [c], (c' :: pre). repeat split; [| |apply suffix_of_refl].
      * simpl. now rewrite Hpq, Hc'.
      * simpl. now rewrite Hpq, Hc'.
Qed.

Lemma head_is_local k pre x tail :
  x <> k -> head_is k (pre ++ x :: tail) = head_is k pre.
Proof.
  intros Hx. destruct pre as [|y pre]; [|reflexivity].
  simpl. now apply N.eqb_neq.
Qed.

(** One iteration that starts in plain text gives the same token and
    leaves the same text whether or not something follows the text,
    provided that what follows neither joins its last run nor completes a
    two-character operator. *)
Lemma lex_one_local c pre x tail tokens :
  plain (c :: pre) = true -> separated (c :: pre) x ->
  x <> ch "=" -> x <> ch "&" ->
  exists pre' tokens',
    lex_one c (pre ++ x :: tail) tokens = Next (pre' ++ x :: tail) tokens' /\
    lex_one c pre tokens = Next pre' tokens' /\
    suffix_of pre' pre.
Proof.
  intros Hplain Hsep Hxe Hxa. simpl in Hplain.
  apply andb_prop in Hplain as [Hc _]. apply andb_prop in Hc as [Hrec Hnq].
  destruct (digit c) eqn:Hd.
  { destruct (shift_while_local isint digit c pre x tail
                isint_single joins_digit Hd Hsep)
      as (acc & pre' & E & E' & Hsuf).
    rewrite !lex_one_digit, E, E' by exact Hd. eauto. }
  destruct (alpha c) eqn:Ha.
  { destruct (shift_while_local isalpha alpha c pre x tail
                isalpha_single joins_alpha Ha Hsep)
      as (acc & pre' & E & E' & Hsuf).
    rewrite !lex_one_alpha, E, E' by exact Ha.
    destruct (KEYWORDS acc); eauto. }
  unfold lex_one.
  rewrite !(head_is_local (ch "=") pre x tail Hxe),
          !(head_is_local (ch "&") pre x tail Hxa).
  clear Hxe Hxa Hsep. split_ifs;
    lazymatch goal with
    | H : head_is _ ?p = true
      |- exists _ _, Next (tl _) _ = _ /\ _ =>
        destruct p as [|y p]; [discriminate H|];
        exists p; eexists; repeat split; now exists [y]
    | |- exists _ _, Next (?p ++ _) _ = _ /\ _ =>
        exists p; eexists; repeat split; apply suffix_of_refl
    | |- _ =>
        exfalso;
        first [ rewrite isint_single in *; congruence
              | rewrite isalpha_single in *; congruence
              | unfold not_dquote in Hnq; apply negb_true_iff in Hnq;
                congruence
              | unfold recognized, single_character, js in Hrec;
                cbn [existsb map list_ascii_of_string] in Hrec;
                repeat match goal with
                | Hf : orb _ _ = false |- _ =>
                    apply orb_false_elim in Hf as [? ?]
                end;
                repeat match goal with
                | Hf : ?b = false |- _ => rewrite Hf in Hrec
                end;
                discriminate Hrec ]
    end.
Qed.

Lemma iterations_local pre x tail tokens :
  plain pre = true -> separated pre x -> x <> ch "=" -> x <> ch "&" ->
  exists n tokens',
    iterations n (pre ++ x :: tail) tokens = Some (x :: tail, tokens') /\
    iterations n pre tokens = Some ([], tokens').
Proof.
  revert tokens. induction pre as [|c pre IH] using source_induction;
    intros tokens Hplain Hsep Hxe Hxa.
  - now exists O, tokens.
  - destruct (lex_one_local c pre x tail tokens Hplain Hsep Hxe Hxa)
      as (pre' & tokens' & E & E' & Hsuf).
    destruct (IH pre' Hsuf tokens') as (n & tokens'' & Hn & Hn'); auto.
    + simpl in Hplain. apply andb_prop in Hplain as [_ Hplain].
      eapply forallb_suffix_of; eassumption.
    + eapply separated_suffix_of; [|exact Hsep].
      eapply suffix_of_trans; [exact Hsuf|]. now exists [c].
    + exists (S n), tokens''. simpl. now rewrite E, E'.
Qed.

Lemma iterations_scan n src tokens src' tokens' :
  iterations n src tokens = Some (src', tokens') ->
  scan src tokens = scan src' tokens'.
Proof.
  revert src tokens. induction n as [|n IH]; intros src tokens; simpl.
  - intros H; inversion H; subst. reflexivity.
  - destruct src as [|c rest]; [discriminate|].
    destruct (lex_one c rest tokens) as [s t|] eqn:E; [|discriminate].
    intros H. rewrite (scan_step _ _ _ _ _ E). now apply IH.
Qed.

(** Plain text lexes to its own tokens, and the scan of a longer source
    that starts with it goes on behind it with exactly these tokens. *)
Lemma plain_prefix pre x :
  plain pre = true -> separated pre x -> x <> ch "=" -> x <> ch "&" ->
  exists toks,
    tokenize pre = Returns (toks ++ [eof]) /\
    forall tail, tokenize (pre ++ x :: tail) = scan (x :: tail) toks.
Proof.
  intros Hplain Hsep Hxe Hxa.
  destruct (iterations_local pre x [] [] Hplain Hsep Hxe Hxa)
    as (n & toks & _ & Hpre).
  exists toks. split.
  - unfold tokenize. rewrite (iterations_scan _ _ _ _ _ Hpre). now simp scan.
  - intros tail.
    destruct (iterations_local pre x tail [] Hplain Hsep Hxe Hxa)
      as (m & toks' & Hlong & Hpre').
    unfold tokenize. rewrite (iterations_scan _ _ _ _ _ Hlong).
    apply iterations_scan in Hpre, Hpre'. rewrite Hpre in Hpre'.
    simp scan in Hpre'. inversion Hpre' as [Heq].
    apply app_inj_tail in Heq as [-> _]. reflexivity.
Qed.

Lemma separated_always pre x :
  (forall a, joins a x = false) -> separated pre x.
Proof.
  intros H. apply (separated_rev (fun _ => false)); [exact H|].
  now destruct (rev pre).
Qed.

Lemma joins_neither a x : digit x = false -> alpha x = false -> joins a x = false.
Proof. intros Hd Ha. unfold joins. now rewrite Hd, Ha, !andb_false_r. Qed.

Lemma skippable_classes w :
  isskippable [w] = true ->
  digit w = false /\ alpha w = false /\ w <> ch "=" /\ w <> ch "&".
Proof.
  intros H.
  destruct (digit w) eqn:Hd; [absurd_class|].
  destruct (alpha w) eqn:Ha; [absurd_class|].
  repeat split; intros ->; discriminate H.
Qed.

Lemma unrecognized_classes c :
  recognized c = false ->
  digit c = false /\ alpha c = false /\ c <> ch "=" /\ c <> ch "&".
Proof.
  intros H.
  destruct (digit c) eqn:Hd; [absurd_class|].
  destruct (alpha c) eqn:Ha; [absurd_class|].
  repeat split; intros ->; discriminate H.
Qed.

Lemma plain_forallb pre :
  plain pre = true <->
  forallb recognized pre = true /\ forallb not_dquote pre = true.
Proof.
  unfold plain. induction pre as [|c pre IH]; simpl; [tauto|].
  rewrite !andb_true_iff, IH. tauto.
Qed.

Lemma first_failing (p : char -> bool) src :
  forallb p src = false ->
  exists pre c rest,
    src = pre ++ c :: rest /\ forallb p pre = true /\ p c = false.
Proof.
  induction src as [|c src IH]; simpl; [discriminate|].
  destruct (p c) eqn:Hc.
  - intros H. destruct (IH H) as (pre & c' & rest & -> & Hpre & Hc').
    exists (c :: pre), c', rest. simpl. now rewrite Hc.
  - intros _. now exists [], c, src.
Qed.

Lemma tokenize_exits_at_unrecognized pre c rest :
  plain pre = true -> recognized c = false ->
  tokenize (pre ++ c :: rest)
  = Exits 1 [ArgStr unrecognized_message; ArgNum c; ArgStr [c]].
Proof.
  intros Hplain Hc.
  destruct (unrecognized_classes c Hc) as (Hd & Ha & Hxe & Hxa).
  destruct (plain_prefix pre c Hplain) as (toks & _ & Hlong); auto.
  { apply separated_always. intros x. now apply joins_neither. }
  rewrite Hlong. apply scan_halt. now apply lex_one_unrecognized.
Qed.

(** X1.  Lexing composes at whitespace: when plain text (no double quote,
    no unrecognized character) is followed by a whitespace character, the
    tokens of the whole source are the tokens of the plain text followed
    by whatever lexing the remainder gives, be it tokens or the fatal
    exit. *)
Theorem tokenize_splits_at_whitespace (a : jsstring) (w : char) (b : jsstring) :
  plain a = true -> isskippable [w] = true ->
  exists toks,
    tokenize a = Returns (toks ++ [eof]) /\
    tokenize (a ++ w :: b) = prepend toks (tokenize b).
Proof.
  intros Hplain Hw.
  destruct (skippable_classes w Hw) as (Hd & Ha & Hxe & Hxa).
  destruct (plain_prefix a w Hplain) as (toks & Hpre & Hlong); auto.
  { apply separated_always. intros x. now apply joins_neither. }
  exists toks. split; [exact Hpre|].
  rewrite Hlong, (scan_skippable _ _ _ Hw). apply scan_prepend.
Qed.

Lemma tokenize_splits_at_whitespace_witness :
  plain (js "let x=1;") = true /\ isskippable [10] = true /\
  exists toks,
    tokenize (js "let x=1;") = Returns (toks ++ [eof]) /\
    tokenize (js "let x=1;" ++ 10 :: js "x==y") = prepend toks (tokenize (js "x==y")).
Proof.
  split; [reflexivity|]. split; [reflexivity|].
  apply (tokenize_splits_at_whitespace (js "let x=1;") 10 (js "x==y"));
    reflexivity.
Defined.

(** X2.  The character that the lexer reports is the first unrecognized
    one: when only plain text stands before an unrecognized character, the
    process ends with status 1 and the diagnostic carries that character,
    whatever comes after it. *)
Theorem first_unrecognized_character_is_reported
  (pre : jsstring) (c : char) (rest : jsstring) :
  plain pre = true -> recognized c = false ->
  tokenize (pre ++ c :: rest)
  = Exits 1 [ArgStr unrecognized_message; ArgNum c; ArgStr [c]].
Proof. apply tokenize_exits_at_unrecognized. Qed.

Lemma first_unrecognized_character_is_reported_witness :
  plain (js "a = 1 ") = true /\ recognized (ch "@") = false /\
  tokenize (js "a = 1 @ # 2")
  = Exits 1 [ArgStr unrecognized_message; ArgNum (ch "@"); ArgStr [ch "@"]].
Proof.
  split; [reflexivity|]. split; [reflexivity|].
  apply (first_unrecognized_character_is_reported
           (js "a = 1 ") (ch "@") (js " # 2")); reflexivity.
Defined.

(** X3.  A source text without any double quote is accepted, that is
    [tokenize] returns a token sequence for it, exactly when every one of
    its characters is recognized. *)
Theorem quote_free_source_accepted_iff (sourceCode : jsstring) :
  forallb not_dquote sourceCode = true ->
  ((exists out, tokenize sourceCode = Returns out) <->
   forallb recognized sourceCode = true).
Proof.
  intros Hq. split.
  - intros [out Hout].
    destruct (forallb recognized sourceCode) eqn:Hrec; [reflexivity|].
    destruct (first_failing _ _ Hrec) as (pre & c & rest & -> & Hpre & Hc).
    rewrite tokenize_exits_at_unrecognized in Hout;
      [discriminate| |exact Hc].
    apply plain_forallb. split; [exact Hpre|].
    rewrite forallb_app in Hq. now apply andb_prop in Hq.
  - intros Hrec. now apply scan_recognized.
Qed.

Lemma quote_free_source_accepted_iff_witness :
  forallb not_dquote (js "a+1") = true /\
  ((exists out, tokenize (js "a+1") = Returns out) <->
   forallb recognized (js "a+1") = true).
Proof.
  split; [reflexivity|].
  apply (quote_free_source_accepted_iff (js "a+1")). reflexivity.
Defined.

(** ** What one iteration pushes and consumes *)

Lemma lex_one_single c rest tokens :
  single_character c = true ->
  exists ty, lex_one c rest tokens = Next rest (push tokens (token [c] ty)).
Proof.
  intros H. unfold single_character, js in H.
  cbn [existsb map list_ascii_of_string] in H.
  repeat (apply orb_prop in H as [H|H]); try discriminate H;
    apply N.eqb_eq in H; subst c; eexists; reflexivity.
Qed.

Lemma recognized_cases c :
  recognized c = true ->
  single_character c = true \/ digit c = true \/ c = ch "=" \/ c = ch "&" \/
  c = ch "!" \/ c = dquote \/ alpha c = true \/ isskippable [c] = true.
Proof.
  unfold recognized. rewrite isint_single, isalpha_single.
  rewrite !orb_true_iff, !N.eqb_eq. tauto.
Qed.

Lemma forallb_impl (p q : char -> bool) l :
  (forall c, p c = true -> q c = true) ->
  forallb p l = true -> forallb q l = true.
Proof.
  intros Hpq. rewrite !forallb_forall. auto.
Qed.

Lemma digit_not_skippable c : digit c = true -> negb (isskippable [c]) = true.
Proof.
  intros H. destruct (isskippable [c]) eqn:E; [absurd_class|reflexivity].
Qed.

Lemma alpha_not_skippable c : alpha c = true -> negb (isskippable [c]) = true.
Proof.
  intros H. destruct (isskippable [c]) eqn:E; [absurd_class|reflexivity].
Qed.

Lemma single_not_skippable c :
  single_character c = true -> negb (isskippable [c]) = true.
Proof.
  intros H. destruct (isskippable [c]) eqn:E; [absurd_class|reflexivity].
Qed.

(** An iteration that goes on either skipped one whitespace character
    and pushed nothing, or pushed exactly one token; unless that token is
    a string literal, its text is the very piece of source that the
    iteration consumed, and holds no whitespace. *)
Lemma lex_one_emission c rest tokens src' tokens' :
  lex_one c rest tokens = Next src' tokens' ->
  (isskippable [c] = true /\ src' = rest /\ tokens' = tokens) \/
  (isskippable [c] = false /\
   exists t, tokens' = push tokens t /\
             (c = dquote \/
              (c :: rest = value t ++ src' /\
               forallb (fun c => negb (isskippable [c])) (value t) = true))).
Proof.
  intros H. destruct (recognized c) eqn:Hrec;
    [|rewrite lex_one_unrecognized in H by exact Hrec; discriminate].
  apply recognized_cases in Hrec
    as [Hs|[Hd|[->|[->|[->|[->|[Ha|Hw]]]]]]].
  - destruct (lex_one_single c rest tokens Hs) as [ty E].
    rewrite E in H. inversion H; subst. right.
    apply single_not_skippable in Hs. split; [now apply negb_true_iff|].
    eexists. split; [reflexivity|]. right. simpl. now rewrite Hs.
  - rewrite lex_one_digit in H by exact Hd.
    destruct (shift_while isint (c :: rest)) as [num s] eqn:E.
    inversion H; subst. right.
    split; [apply negb_true_iff; now apply digit_not_skippable|].
    eexists. split; [reflexivity|]. right.
    destruct (shift_while_spec isint digit _ _ _ isint_single E)
      as (Hsplit & Hall & _).
    split; [exact Hsplit|].
    eapply forallb_impl; [|exact Hall]. apply digit_not_skippable.
  - rewrite lex_one_equals in H. right. split; [reflexivity|].
    destruct rest as [|y rest]; cbn [head_is tl] in H.
    + inversion H; subst. eexists. split; [reflexivity|]. right. now split.
    + destruct (y =? ch "=") eqn:Ey; inversion H; subst;
        eexists; (split; [reflexivity|]); right; [|now split].
      apply N.eqb_eq in Ey. subst y. now split.
  - rewrite lex_one_ampersand in H. right. split; [reflexivity|].
    destruct rest as [|y rest]; cbn [head_is tl] in H.
    + inversion H; subst. eexists. split; [reflexivity|]. right. now split.
    + destruct (y =? ch "&") eqn:Ey; inversion H; subst;
        eexists; (split; [reflexivity|]); right; [|now split].
      apply N.eqb_eq in Ey. subst y. now split.
  - rewrite lex_one_exclamation in H. right. split; [reflexivity|].
    destruct rest as [|y rest]; cbn [head_is tl] in H.
    + inversion H; subst. eexists. split; [reflexivity|]. right. now split.
    + destruct (y =? ch "=") eqn:Ey; inversion H; subst;
        eexists; (split; [reflexivity|]); right; [|now split].
      apply N.eqb_eq in Ey. subst y. now split.
  - rewrite lex_one_dquote in H.
    destruct (shift_while _ rest) as [str s]. inversion H; subst.
    right. split; [reflexivity|]. eexists. split; [reflexivity|]. now left.
  - rewrite lex_one_alpha in H by exact Ha.
    destruct (shift_while isalpha (c :: rest)) as [ident s] eqn:E.
    destruct (shift_while_spec isalpha alpha _ _ _ isalpha_single E)
      as (Hsplit & Hall & _).
    assert (Hns : forallb (fun c => negb (isskippable [c])) ident = true)
      by (eapply forallb_impl; [|exact Hall]; apply alpha_not_skippable).
    right.
    split; [apply negb_true_iff; now apply alpha_not_skippable|].
    destruct (KEYWORDS ident); inversion H; subst;
      eexists; (split; [reflexivity|]); right; now split.
  - rewrite lex_one_skippable in H by exact Hw. inversion H; subst.
    left. auto.
Qed.

Lemma without_whitespace_app a b :
  without_whitespace (a ++ b) = without_whitespace a ++ without_whitespace b.
Proof. apply filter_app. Qed.

Lemma without_whitespace_id v :
  forallb (fun c => negb (isskippable [c])) v = true -> without_whitespace v = v.
Proof.
  induction v as [|c v IH]; simpl; [reflexivity|]. intros H.
  apply andb_prop in H as [Hc Hv]. rewrite Hc. f_equal. now apply IH.
Qed.

Lemma raw_text_cons t out :
  out <> [] -> raw_text (t :: out) = value t ++ raw_text out.
Proof. unfold raw_text. destruct out; [congruence|reflexivity]. Qed.

Lemma scan_raw_text src :
  forallb not_dquote src = true ->
  forall out, scan src [] = Returns out -> raw_text out = without_whitespace src.
Proof.
  induction src as [|c rest IH] using source_induction; intros Hq out.
  - simp scan. intros H; inversion H; subst. reflexivity.
  - rewrite scan_cons.
    destruct (lex_one c rest []) as [src' tokens'|] eqn:E; [|discriminate].
    simpl in Hq. apply andb_prop in Hq as [Hc Hrest].
    pose proof (lex_one_shifts _ _ _ _ _ E) as Hsuf.
    assert (Hq' : forallb not_dquote src' = true)
      by (eapply forallb_suffix_of; eassumption).
    destruct (lex_one_emission _ _ _ _ _ E)
      as [(Hw & -> & ->)|(Hw & t & -> & [->|[Hsplit Hns]])].
    + intros H. rewrite (IH rest Hsuf Hrest out H).
      unfold without_whitespace. simpl. now rewrite Hw.
    + discriminate Hc.
    + rewrite scan_prepend.
      destruct (scan src' []) as [out'| |] eqn:E'; try discriminate.
      cbn [prepend app]. intros H; inversion H; subst out.
      destruct (scan_well_lexed _ _ _ E') as (more & Hout' & _).
      rewrite raw_text_cons by (rewrite Hout'; now destruct more).
      rewrite (IH src' Hsuf Hq' out' E'), Hsplit.
      now rewrite without_whitespace_app, (without_whitespace_id _ Hns).
Qed.

(** X4.  For a source text without double quotes, the texts of the tokens
    that [tokenize] returns, read one after the other up to the end
    marker, spell the source text with its whitespace taken out: no other
    character is dropped, added, changed or moved. *)
Theorem token_texts_spell_the_source (sourceCode : jsstring) (out : list Token) :
  forallb not_dquote sourceCode = true ->
  tokenize sourceCode = Returns out ->
  raw_text out = without_whitespace sourceCode.
Proof. intros Hq H. now apply scan_raw_text. Qed.

Lemma token_texts_spell_the_source_witness :
  forallb not_dquote (js "if (a1 != 20) { b = a1 & 7 }") = true /\
  exists out,
    tokenize (js "if (a1 != 20) { b = a1 & 7 }") = Returns out /\
    raw_text out = js "if(a1!=20){b=a1&7}".
Proof.
  split; [reflexivity|].
  exists [token (js "if") TokenType.If; token (js "(") TokenType.OpenParen;
          token (js "a") TokenType.Identifier; token (js "1") TokenType.Number;
          token (js "!=") TokenType.NotEqualsCompare;
          token (js "20") TokenType.Number;
          token (js ")") TokenType.CloseParen;
          token (js "{") TokenType.OpenBrace;
          token (js "b") TokenType.Identifier; token (js "=") TokenType.Equals;
          token (js "a") TokenType.Identifier; token (js "1") TokenType.Number;
          token (js "&") TokenType.Ampersand; token (js "7") TokenType.Number;
          token (js "}") TokenType.CloseBrace; eof].
  split; [reflexivity|].
  apply (token_texts_spell_the_source (js "if (a1 != 20) { b = a1 & 7 }"));
    reflexivity.
Defined.

Lemma scan_length src tokens out :
  scan src tokens = Returns out ->
  (length tokens + 1 <= length out <= length tokens + length src + 1)%nat.
Proof.
  revert tokens out.
  induction src as [|c rest IH] using source_induction; intros tokens out.
  - simp scan. intros H; inversion H; subst. unfold push.
    rewrite length_app. simpl. lia.
  - rewrite scan_cons.
    destruct (lex_one c rest tokens) as [src' tokens'|] eqn:E; [|discriminate].
    intros H. pose proof (lex_one_shifts _ _ _ _ _ E) as Hsuf.
    apply (IH src' Hsuf) in H. apply suffix_of_length in Hsuf.
    apply lex_one_well_lexed in E as [->|(t & -> & _)]; simpl.
    + lia.
    + unfold push in H. rewrite length_app in H. simpl in H. lia.
Qed.

(** X5.  A returned token sequence is never empty and is never longer
    than the source text by more than the end marker: at most one token
    per character. *)
Theorem token_count_bound (sourceCode : jsstring) (out : list Token) :
  tokenize sourceCode = Returns out ->
  (1 <= length out <= length sourceCode + 1)%nat.
Proof. intros H. apply scan_length in H. simpl in H. lia. Qed.

Lemma token_count_bound_witness :
  tokenize (js "(){}")
  = Returns [token (js "(") TokenType.OpenParen;
             token (js ")") TokenType.CloseParen;
             token (js "{") TokenType.OpenBrace;
             token (js "}") TokenType.CloseBrace; eof] /\
  (1 <= 5 <= length (js "(){}") + 1)%nat.
Proof.
  split; [reflexivity|].
  exact (token_count_bound (js "(){}") _ eq_refl).
Defined.

(** X6.  [tokenize] returns nothing but the end-of-input token exactly
    when the source text is empty or made of whitespace only (space, tab,
    line feed, carriage return). *)
Theorem only_eof_iff_blank (sourceCode : jsstring) :
  tokenize sourceCode = Returns [eof] <-> blank sourceCode = true.
Proof.
  unfold tokenize, blank. induction sourceCode as [|c rest IH].
  - simp scan. simpl. tauto.
  - simpl. rewrite andb_true_iff, <- IH, scan_cons.
    destruct (lex_one c rest []) as [src' tokens'|] eqn:E.
    + destruct (lex_one_emission _ _ _ _ _ E)
        as [(Hw & -> & ->)|(Hw & t & -> & _)].
      * tauto.
      * rewrite Hw. split; [|intros [? _]; discriminate].
        intros H. apply scan_length in H. simpl in H. lia.
    + split; [discriminate|]. intros [Hw _].
      rewrite lex_one_skippable in E by exact Hw. discriminate.
Qed.

Lemma scan_exits src tokens status stderr :
  scan src tokens = Exits status stderr ->
  status = 1%Z /\
  exists c, In c src /\ recognized c = false /\
            stderr = [ArgStr unrecognized_message; ArgNum c; ArgStr [c]].
Proof.
  revert tokens.
  induction src as [|c rest IH] using source_induction; intros tokens.
  - simp scan. discriminate.
  - rewrite scan_cons.
    destruct (lex_one c rest tokens) as [src' tokens'|st err] eqn:E.
    + intros H. pose proof (lex_one_shifts _ _ _ _ _ E) as Hsuf.
      destruct (IH src' Hsuf tokens' H) as (-> & c' & Hin & Hc' & ->).
      split; [reflexivity|]. exists c'. repeat split; auto.
      destruct Hsuf as [pre ->]. right. apply in_or_app. now right.
    + intros H. inversion H; subst.
      destruct (recognized c) eqn:Hrec.
      * destruct (lex_one_recognized c rest tokens Hrec) as (? & ? & E').
        congruence.
      * rewrite lex_one_unrecognized in E by exact Hrec. inversion E; subst.
        split; [reflexivity|]. exists c. repeat split; auto. now left.
Qed.

(** X7.  [tokenize] fails in one way only.  It never throws; and when it
    ends the process, the status is 1 and the diagnostic is the
    unrecognized-character message with the code and the text of a
    character that occurs in the source and belongs to no recognized
    class. *)
Theorem tokenize_fails_only_by_exit (sourceCode : jsstring) :
  (forall msg, tokenize sourceCode <> Throws msg) /\
  (forall status stderr,
      tokenize sourceCode = Exits status stderr ->
      status = 1%Z /\
      exists c, In c sourceCode /\ recognized c = false /\
                stderr = [ArgStr unrecognized_message; ArgNum c; ArgStr [c]]).
Proof.
  split.
  - intros msg. apply scan_never_throws.
  - intros status stderr. apply scan_exits.
Qed.

(** X8.  Of the tokens that [tokenize] returns, none has the kind
    [Quotation]; only a string literal token can have an empty text; and
    the only token of kind [EOF] is the end marker with the text
    [EndOfFile], so an identifier spelled [EndOfFile] is not taken for
    it. *)
Theorem returned_token_kinds
  (sourceCode : jsstring) (out : list Token) (t : Token) :
  tokenize sourceCode = Returns out -> In t out ->
  type t <> TokenType.Quotation /\
  (value t = [] -> type t = TokenType.String) /\
  (type t = TokenType.EOF -> t = eof).
Proof.
  intros Hout Hin.
  destruct (tokens_of_output _ _ _ Hout Hin) as [->|Hwl].
  - repeat split; discriminate.
  - destruct t as [v ty]. unfold well_lexed in Hwl. simpl in *.
    repeat split.
    + intros ->. discriminate.
    + intros ->. destruct ty; try reflexivity; discriminate Hwl.
    + intros ->. discriminate.
Qed.

Lemma returned_token_kinds_witness :
  let out := [token (js "EndOfFile") TokenType.Identifier;
              token (js "=") TokenType.Equals;
              token [] TokenType.String; eof] in
  tokenize (js "EndOfFile=" ++ [dquote; dquote]) = Returns out /\
  (type (token [] TokenType.String) <> TokenType.Quotation /\
   (value (token [] TokenType.String) = [] ->
    type (token [] TokenType.String) = TokenType.String) /\
   (type (token [] TokenType.String) = TokenType.EOF ->
    token [] TokenType.String = eof)).
Proof.
  cbv zeta. split; [reflexivity|].
  apply (returned_token_kinds (js "EndOfFile=" ++ [dquote; dquote])
           [token (js "EndOfFile") TokenType.Identifier;
            token (js "=") TokenType.Equals;
            token [] TokenType.String; eof]);
    [reflexivity|simpl; auto].
Defined.

Lemma tokenize_fails_only_by_exit_witness :
  tokenize (js "a # @")
  = Exits 1 [ArgStr unrecognized_message; ArgNum (ch "#"); ArgStr [ch "#"]] /\
  (1%Z = 1%Z /\
   exists c, In c (js "a # @") /\ recognized c = false /\
             [ArgStr unrecognized_message; ArgNum (ch "#"); ArgStr [ch "#"]]
             = [ArgStr unrecognized_message; ArgNum c; ArgStr [c]]).
Proof.
  split; [reflexivity|].
  apply (proj2 (tokenize_fails_only_by_exit (js "a # @"))). reflexivity.
Defined.

Lemma scan_equals_pairs k rest tokens :
  scan (repeat (ch "=") (2 * k) ++ rest) tokens
  = scan rest (tokens ++ repeat (token (js "==") TokenType.EqualsCompare) k).
Proof.
  revert tokens. induction k as [|k IH]; intros tokens.
  - simpl. now rewrite app_nil_r.
  - replace (2 * S k)%nat with (S (S (2 * k))) by lia.
    cbn [repeat app].
    rewrite (scan_step _ _ _
               (repeat (ch "=") (2 * k) ++ rest)
               (push tokens (token (js "==") TokenType.EqualsCompare)))
      by reflexivity.
    rewrite IH. unfold push. now rewrite <- app_assoc.
Qed.

(** X9.  Equal signs pair up from the left.  A source of 2k equal signs
    lexes to k equality-compare tokens, and one of 2k+1 equal signs to k
    equality-compare tokens followed by one assignment token: three equal
    signs are never one token. *)
Theorem equal_signs_pair_up (k : nat) :
  tokenize (repeat (ch "=") (2 * k))
  = Returns (repeat (token (js "==") TokenType.EqualsCompare) k ++ [eof]) /\
  tokenize (repeat (ch "=") (2 * k + 1))
  = Returns (repeat (token (js "==") TokenType.EqualsCompare) k
             ++ [token (js "=") TokenType.Equals; eof]).
Proof.
  unfold tokenize. split.
  - rewrite <- (app_nil_r (repeat _ (2 * k))), scan_equals_pairs.
    now simp scan.
  - rewrite repeat_app, scan_equals_pairs. simpl repeat.
    rewrite (scan_step _ _ _ [] (push (repeat _ k) (token (js "=") TokenType.Equals)))
      by reflexivity.
    simp scan. unfold push. now rewrite <- app_assoc.
Qed.

Lemma digit_not_alpha c : digit c = true -> alpha c = false.
Proof. intros H. destruct (alpha c) eqn:E; [absurd_class|reflexivity]. Qed.

(** X10.  A name cannot contain digits and a number has no fraction:
    letters directly followed by digits lex to a word token and a numeric
    token, and two digit runs joined by a dot lex to a numeric token, a
    dot token and a numeric token. *)
Theorem digits_end_words_and_dots_split_numbers :
  (forall word digits,
      word <> [] -> forallb alpha word = true ->
      digits <> [] -> forallb digit digits = true ->
      tokenize (word ++ digits)
      = Returns [token word (word_kind word);
                 token digits TokenType.Number; eof]) /\
  (forall whole fraction,
      whole <> [] -> forallb digit whole = true ->
      fraction <> [] -> forallb digit fraction = true ->
      tokenize (whole ++ ch "." :: fraction)
      = Returns [token whole TokenType.Number; token (js ".") TokenType.Dot;
                 token fraction TokenType.Number; eof]).
Proof.
  unfold tokenize. split.
  - intros word digits Hw Hwa Hd Hda.
    rewrite scan_word; auto.
    + pose proof (scan_number digits []
                    (push [] (token word (word_kind word))) Hd Hda I) as E.
      rewrite app_nil_r in E. rewrite E. now simp scan.
    + destruct digits as [|d ds]; [congruence|]. simpl in *.
      apply andb_prop in Hda as [Hd0 _]. now apply digit_not_alpha.
  - intros whole fraction Hw Hwa Hf Hfa.
    rewrite scan_number; auto; [|reflexivity].
    rewrite (scan_step _ _ _ fraction
               (push (push [] (token whole TokenType.Number))
                     (token (js ".") TokenType.Dot))) by reflexivity.
    pose proof (scan_number fraction []
                  (push (push [] (token whole TokenType.Number))
                        (token (js ".") TokenType.Dot)) Hf Hfa I) as E.
    rewrite app_nil_r in E. rewrite E. now simp scan.
Qed.

Lemma digits_end_words_and_dots_split_numbers_witness :
  tokenize (js "for2")
  = Returns [token (js "for") TokenType.For; token (js "2") TokenType.Number;
             eof] /\
  tokenize (js "3.14")
  = Returns [token (js "3") TokenType.Number; token (js ".") TokenType.Dot;
             token (js "14") TokenType.Number; eof].
Proof.
  split.
  - apply (proj1 digits_end_words_and_dots_split_numbers (js "for") (js "2"));
      (discriminate || reflexivity).
  - apply (proj2 digits_end_words_and_dots_split_numbers (js "3") (js "14"));
      (discriminate || reflexivity).
Defined.

(** X15.  Whitespace in front of a source text changes nothing: the
    result of [tokenize], tokens or fatal exit, is that of the text
    without it. *)
Theorem leading_whitespace_is_ignored (ws sourceCode : jsstring) :
  blank ws = true -> tokenize (ws ++ sourceCode) = tokenize sourceCode.
Proof.
  unfold tokenize, blank. induction ws as [|w ws IH]; simpl; [reflexivity|].
  intros H. apply andb_prop in H as [Hw Hws].
  rewrite (scan_skippable _ _ _ Hw). now apply IH.
Qed.

Lemma leading_whitespace_is_ignored_witness :
  blank [32; 9; 10; 13] = true /\
  tokenize ([32; 9; 10; 13] ++ js "x # y") = tokenize (js "x # y").
Proof.
  split; [reflexivity|].
  apply (leading_whitespace_is_ignored [32; 9; 10; 13] (js "x # y")).
  reflexivity.
Defined.

(** * Further properties of the host *)

Section HostMore.

Variables Parser Env Program Value : Type.
Variable new_Parser : Parser.
Variable createGlobalEnv : Env.
Variable readFileSync : jsstring -> Outcome jsstring.
Variable transcribe : jsstring -> Outcome jsstring.
Variable produceAST : Parser -> jsstring -> Outcome (Program * Parser).
Variable evaluate : Program -> Env -> Outcome (Value * Env).

Local Abbreviation run' :=
  (run new_Parser createGlobalEnv readFileSync transcribe produceAST evaluate).
Local Abbreviation repl_turn' := (repl_turn transcribe produceAST evaluate).
Local Abbreviation repl_loop' := (repl_loop transcribe produceAST evaluate).
Local Abbreviation repl' :=
  (repl new_Parser createGlobalEnv transcribe produceAST evaluate).
Local Abbreviation main' :=
  (main new_Parser createGlobalEnv readFileSync transcribe produceAST evaluate).

(** X11.  [run] catches nothing.  For a file name that passes the gate,
    when reading the file, transcribing, parsing or evaluating throws or
    ends the process, [run] fails in that same way, and the stages behind
    the failing one are not called. *)
Theorem run_does_not_catch (filename : jsstring) :
  endsWith filename (js "cbs") = true ->
  forall f,
    (failure (readFileSync filename) = Some f ->
     failure (outcome (run' filename)) = Some f /\
     calls (run' filename) = [call_readFileSync filename]) /\
    (forall input,
        readFileSync filename = Returns input ->
        failure (transcribe input) = Some f ->
        failure (outcome (run' filename)) = Some f /\
        calls (run' filename)
        = [call_readFileSync filename; call_transcribe input]) /\
    (forall input input',
        readFileSync filename = Returns input ->
        transcribe input = Returns input' ->
        failure (produceAST new_Parser input') = Some f ->
        failure (outcome (run' filename)) = Some f /\
        calls (run' filename)
        = [call_readFileSync filename; call_transcribe input;
           call_produceAST input']) /\
    (forall input input' program parser,
        readFileSync filename = Returns input ->
        transcribe input = Returns input' ->
        produceAST new_Parser input' = Returns (program, parser) ->
        failure (evaluate program createGlobalEnv) = Some f ->
        failure (outcome (run' filename)) = Some f /\
        calls (run' filename)
        = [call_readFileSync filename; call_transcribe input;
           call_produceAST input'; call_evaluate program]).
Proof.
  intros Hgate f. unfold run. rewrite Hgate. unfold bind, call. simpl.
  repeat split.
  - destruct (readFileSync filename); simpl in *; congruence.
  - destruct (readFileSync filename); simpl in *; congruence.
  - rewrite H. simpl. destruct (transcribe input); simpl in *; congruence.
  - rewrite H. simpl. destruct (transcribe input); simpl in *; congruence.
  - rewrite H. simpl. rewrite H0. simpl.
    destruct (produceAST new_Parser input'); simpl in *; congruence.
  - rewrite H. simpl. rewrite H0. simpl.
    destruct (produceAST new_Parser input'); simpl in *; congruence.
  - rewrite H. simpl. rewrite H0. simpl. rewrite H1. simpl.
    destruct (evaluate program createGlobalEnv); simpl in *; congruence.
  - rewrite H. simpl. rewrite H0. simpl. rewrite H1. simpl.
    destruct (evaluate program createGlobalEnv); simpl in *; congruence.
Qed.

Lemma repl_loop_cons input lines parser env :
  repl_loop' (input :: lines) parser env
  = bind (repl_turn' input parser env)
      (fun state => let (parser, env) := state in repl_loop' lines parser env).
Proof. reflexivity. Qed.

Lemma repl_turn_exit input parser env :
  exit_requested input = true ->
  repl_turn' input parser env
  = {| outcome := Exits 1 []; calls := [call_question (js "> ")] |}.
Proof. intros H. unfold repl_turn. now rewrite H. Qed.

(** X12.  The interactive loop reads nothing behind a line that is empty
    or contains [exit]: what the loop does, and the calls it makes, are
    the same whatever lines follow such a line, and the loop is never left
    waiting for a further line. *)
Theorem repl_reads_nothing_after_exit
  (before : list jsstring) (line : jsstring) (later : list jsstring)
  (parser : Parser) (env : Env) :
  exit_requested line = true ->
  repl_loop' (before ++ line :: later) parser env
  = repl_loop' (before ++ [line]) parser env /\
  forall state,
    outcome (repl_loop' (before ++ line :: later) parser env) <> Returns state.
Proof.
  intros Hexit. revert parser env.
  induction before as [|input before IH]; intros parser env.
  - cbn [app]. rewrite !repl_loop_cons, (repl_turn_exit _ _ _ Hexit).
    split; [reflexivity|]. intros state. discriminate.
  - cbn [app]. rewrite !repl_loop_cons. unfold bind.
    destruct (outcome (repl_turn' input parser env)) as [[parser' env']| |].
    + destruct (IH parser' env') as [-> Hnot]. split; [reflexivity|].
      intros state. simpl. apply Hnot.
    + split; [reflexivity|discriminate].
    + split; [reflexivity|discriminate].
Qed.

Lemma repl_turn_served input parser env parser' env' :
  outcome (repl_turn' input parser env) = Returns (parser', env') ->
  exit_requested input = false /\
  exists input' program result,
    transcribe input = Returns input' /\
    produceAST parser input' = Returns (program, parser') /\
    evaluate program env = Returns (result, env') /\
    calls (repl_turn' input parser env)
    = [call_question (js "> "); call_transcribe input;
       call_produceAST input'; call_evaluate program; call_log result].
Proof.
  unfold repl_turn. destruct (exit_requested input); [discriminate|].
  unfold bind, call. simpl.
  destruct (transcribe input) as [input'| |] eqn:Ht; simpl;
    try discriminate.
  destruct (produceAST parser input') as [[program parser'']| |] eqn:Hp;
    simpl; try discriminate.
  destruct (evaluate program env) as [[result env'']| |] eqn:He; simpl;
    try discriminate.
  intros H. inversion H; subst. split; [reflexivity|].
  exists input', program, result. rewrite Hp, He. auto.
Qed.

(** X13.  When the interactive loop is still waiting after a list of
    lines, none of these lines was empty or contained [exit], and the
    calls that the loop made are, line after line, these five and no
    other: the prompt, the transcription of the line, the parsing of the
    transcribed text, the evaluation of the parsed program and the
    printing of its value, each line being parsed and evaluated with the
    parser and the environment that the line before left; one more
    prompt, in which the loop waits, ends the list. *)
Theorem repl_waiting_after_lines
  (lines : list jsstring) (parser : Parser) (env : Env)
  (state : Parser * Env) :
  outcome (repl_loop' lines parser env) = Returns state ->
  (forall line, In line lines -> exit_requested line = false) /\
  served transcribe produceAST evaluate lines parser env
    (calls (repl_loop' lines parser env)) state /\
  length (calls (repl_loop' lines parser env)) = (5 * length lines + 1)%nat.
Proof.
  revert parser env. induction lines as [|input lines IH]; intros parser env.
  - intros H. inversion H; subst.
    split; [intros line []|]. split; [constructor|reflexivity].
  - rewrite repl_loop_cons. unfold bind.
    destruct (outcome (repl_turn' input parser env))
      as [[parser' env']| |] eqn:E; try discriminate.
    cbn [outcome calls]. intros H.
    destruct (repl_turn_served _ _ _ _ _ E)
      as (Hexit & input' & program & result & Ht & Hp & He & Hcalls).
    destruct (IH parser' env' H) as (Hlines & Hserved & Hlen).
    rewrite Hcalls. split; [|split].
    + intros line [<-|Hin]; auto.
    + cbn [app]. econstructor; eassumption.
    + cbn [app length]. rewrite Hlen. lia.
Qed.

Lemma run_calls filename c :
  In c (calls (run' filename)) ->
  c = call_readFileSync filename \/
  (exists input, c = call_transcribe input) \/
  (exists input, c = call_produceAST input) \/
  (exists program, c = call_evaluate program).
Proof.
  unfold run. destruct (negb (endsWith filename (js "cbs"))); [intros []|].
  unfold bind, call. simpl.
  destruct (readFileSync filename) as [input| |]; simpl.
  2,3: intros [<-|[]]; auto.
  destruct (transcribe input) as [input'| |]; simpl.
  2,3: intros [<-|[<-|[]]]; eauto.
  destruct (produceAST new_Parser input') as [[program parser]| |]; simpl.
  2,3: intros [<-|[<-|[<-|[]]]]; eauto.
  destruct (evaluate program createGlobalEnv) as [[result env]| |]; simpl;
    intros [<-|[<-|[<-|[<-|[]]]]]; eauto 6.
Qed.

Lemma repl_loop_calls lines parser env :
  exists more,
    calls (repl_loop' lines parser env) = call_question (js "> ") :: more.
Proof.
  destruct lines as [|input lines]; [now exists []|].
  rewrite repl_loop_cons. unfold bind.
  assert (H : exists more, calls (repl_turn' input parser env)
                           = call_question (js "> ") :: more).
  { eexists. reflexivity. }
  destruct H as [more H].
  destruct (outcome (repl_turn' input parser env)) as [[p e]| |];
    cbn [calls]; rewrite H; simpl; eauto.
Qed.

(** X14.  The entry point runs a file only for a non-empty argument.
    With a non-empty argument that does not end with [cbs] the program
    does nothing at all: no file is read and the interactive loop is not
    started.  With any non-empty argument it never prompts.  With an
    empty argument it behaves as with none: it prints the banner and
    then prompts. *)
Theorem main_dispatch (lines : list jsstring) :
  (forall filename,
      filename <> [] -> endsWith filename (js "cbs") = false ->
      main' (Some filename) lines
      = {| outcome := Returns (inl None); calls := [] |}) /\
  (forall filename prompt,
      filename <> [] ->
      ~ In (call_question prompt) (calls (main' (Some filename) lines))) /\
  main' (Some []) lines = main' None lines /\
  exists more,
    calls (main' None lines)
    = call_log_text (js "Repl v1.0 (Bussin)") :: call_question (js "> ")
        :: more.
Proof.
  split; [|split; [|split]].
  - intros [|c name] Hne Hgate; [congruence|].
    unfold main, run. now rewrite Hgate.
  - intros [|c name] prompt Hne; [congruence|].
    unfold main, bind.
    destruct (outcome (run' (c :: name))) eqn:E; simpl;
      rewrite ?app_nil_r; intros Hin; apply run_calls in Hin;
      destruct Hin as [H|[[? H]|[[? H]|[? H]]]]; discriminate H.
  - reflexivity.
  - unfold main, repl. unfold bind at 1 2. unfold call at 1 2 3. simpl.
    destruct (repl_loop_calls lines new_Parser createGlobalEnv) as [more H].
    destruct (outcome (repl_loop' lines new_Parser createGlobalEnv));
      cbn [calls outcome]; rewrite ?H; simpl; rewrite ?H; simpl; eauto.
Qed.

End HostMore.

Lemma run_does_not_catch_witness :
  endsWith (js "main.cbs") (js "cbs") = true /\
  (failure (outcome (run tt tt missing_file identity_transcribe lexing_parser
                       counting_evaluate (js "main.cbs")))
   = Some (inl (js "ENOENT")) /\
   calls (run tt tt missing_file identity_transcribe lexing_parser
            counting_evaluate (js "main.cbs"))
   = [call_readFileSync (js "main.cbs")]) /\
  (failure (outcome (run tt tt garbled_file identity_transcribe lexing_parser
                       counting_evaluate (js "main.cbs")))
   = Some (inr (1%Z, [ArgStr unrecognized_message; ArgNum (ch "#");
                      ArgStr [ch "#"]])) /\
   calls (run tt tt garbled_file identity_transcribe lexing_parser
            counting_evaluate (js "main.cbs"))
   = [call_readFileSync (js "main.cbs"); call_transcribe (js "1 # 2");
      call_produceAST (js "1 # 2")]).
Proof.
  split; [reflexivity|]. split.
  - destruct (run_does_not_catch unit unit (list Token) nat tt tt
                missing_file identity_transcribe lexing_parser
                counting_evaluate (js "main.cbs") eq_refl
                (inl (js "ENOENT"))) as (Hread & _).
    exact (Hread eq_refl).
  - destruct (run_does_not_catch unit unit (list Token) nat tt tt
                garbled_file identity_transcribe lexing_parser
                counting_evaluate (js "main.cbs") eq_refl
                (inr (1%Z, [ArgStr unrecognized_message; ArgNum (ch "#");
                            ArgStr [ch "#"]]))) as (_ & _ & Hparse & _).
    exact (Hparse (js "1 # 2") (js "1 # 2") eq_refl eq_refl eq_refl).
Defined.

Lemma repl_reads_nothing_after_exit_witness :
  exit_requested (js "exit") = true /\
  repl_loop identity_transcribe lexing_parser counting_evaluate
    ([js "1 + 2"] ++ js "exit" :: [js "3"; js "#"]) tt tt
  = repl_loop identity_transcribe lexing_parser counting_evaluate
      ([js "1 + 2"] ++ [js "exit"]) tt tt.
Proof.
  split; [reflexivity|].
  apply (repl_reads_nothing_after_exit unit unit (list Token) nat
           identity_transcribe lexing_parser counting_evaluate
           [js "1 + 2"] (js "exit") [js "3"; js "#"] tt tt).
  reflexivity.
Defined.

Lemma repl_waiting_after_lines_witness :
  outcome (repl_loop identity_transcribe lexing_parser counting_evaluate
             [js "1 + 2"; js "x"] tt tt) = Returns (tt, tt) /\
  (forall line, In line [js "1 + 2"; js "x"] -> exit_requested line = false) /\
  served identity_transcribe lexing_parser counting_evaluate
    [js "1 + 2"; js "x"] tt tt
    [call_question (js "> "); call_transcribe (js "1 + 2");
     call_produceAST (js "1 + 2");
     call_evaluate [token (js "1") TokenType.Number;
                    token (js "+") TokenType.BinaryOperator;
                    token (js "2") TokenType.Number; eof];
     call_log 4%nat;
     call_question (js "> "); call_transcribe (js "x");
     call_produceAST (js "x");
     call_evaluate [token (js "x") TokenType.Identifier; eof];
     call_log 2%nat;
     call_question (js "> ")]
    (tt, tt) /\
  length (calls (repl_loop identity_transcribe lexing_parser counting_evaluate
                   [js "1 + 2"; js "x"] tt tt)) = (5 * 2 + 1)%nat.
Proof.
  split; [reflexivity|].
  apply (repl_waiting_after_lines unit unit (list Token) nat
           identity_transcribe lexing_parser counting_evaluate
           [js "1 + 2"; js "x"] tt tt (tt, tt)).
  reflexivity.
Defined.

Lemma main_dispatch_witness :
  js "notes.txt" <> [] /\ endsWith (js "notes.txt") (js "cbs") = false /\
  main tt tt constant_file identity_transcribe lexing_parser counting_evaluate
    (Some (js "notes.txt")) [js "1 + 2"]
  = {| outcome := Returns (inl None); calls := [] |} /\
  ~ In (call_question (js "> "))
      (calls (main tt tt constant_file identity_transcribe lexing_parser
                counting_evaluate (Some (js "main.cbs")) [js "1 + 2"])).
Proof.
  destruct (main_dispatch unit unit (list Token) nat tt tt constant_file
              identity_transcribe lexing_parser counting_evaluate
              [js "1 + 2"]) as (Hskip & Hquiet & _).
  split; [discriminate|]. split; [reflexivity|]. split.
  - apply Hskip; [discriminate|reflexivity].
  - apply Hquiet. discriminate.
Defined.
